(** * crimson/osd/osd_operations/client_request.cc

    A shallow embedding of [ClientRequest], the per-request driver of the
    crimson OSD, as interaction trees.  Every call the request makes on one of
    its collaborators (pipeline stages, osdmap gates, the placement group, the
    op sequencer, the recovery backend, the connection) is a visible event
    whose answer is chosen by the environment; [seastar::repeat] is
    [ITree.iter] and the [process_op]/[do_process] recursion is [rec].

    The properties are stated over [after t calls u]: the program [t] can make
    the calls [calls] (each paired with the answer it received) and then
    behaves as [u], up to silent steps.  [after_iff_is_trace] relates this to
    the traces of the interaction tree library.  Logging is left out. *)

From Stdlib Require Import ZArith List Bool Lia Morphisms.
From ITree Require Import ITree ITreeFacts Interp.Traces.
From Paco Require Import paco.
Import ITreeNotations ListNotations.
Local Open Scope itree_scope.
Local Open Scope Z_scope.

Set Implicit Arguments.
Unset Strict Implicit.

(** ** Identifiers and messages *)

Definition epoch_t := Z.
Definition spg_t := Z.
Definition hobject_t := Z.
Definition osd_reqid_t := Z.
Definition ConnectionRef := Z.
Definition PGRef := Z.
Definition ObjectContextRef := Z.

Record eversion_t := { ev_epoch : epoch_t; ev_version : Z }.

(** Constants and macros of include/rados/rados.h and errno.h that
    client_request.cc uses but does not define. *)
Class Rados := {
  CEPH_OSD_FLAG_ACK : Z;
  CEPH_OSD_FLAG_ONDISK : Z;
  CEPH_OSD_FLAG_BALANCE_READS : Z;
  CEPH_OSD_FLAG_LOCALIZE_READS : Z;
  CEPH_OSD_FLAG_RETURNVEC : Z;
  ceph_osd_op_type_pg : Z -> bool;
  EAGAIN : Z
}.

(** One sub-operation: only its opcode ([op.op.op]) is inspected here. *)
Record OSDOp := { op_code : Z }.

(** The decoded client request.  [finish_decode]/[clear_payload] only move the
    message from its wire form to this decoded form. *)
Record MOSDOp := {
  get_spg : spg_t;
  get_min_epoch : epoch_t;
  get_map_epoch : epoch_t;
  get_flags : Z;
  get_hobj : hobject_t;
  get_reqid : osd_reqid_t;
  ops : list OSDOp
}.

(** [m->has_flag(f)]: [flags & f], read as a C++ condition. *)
Definition has_flag (m : MOSDOp) (f : Z) : bool :=
  negb (Z.land (get_flags m) f =? 0).

(** The arguments of [make_message<MOSDOpReply>(req, r, e, acktype, b)]. *)
Record MOSDOpReply := {
  reply_req : MOSDOp;
  reply_result : Z;
  reply_epoch : epoch_t;
  reply_acktype : Z;
  reply_ignore_out_data : bool
}.

(** Modelled from the spec: the last argument of the reply is the client's
    "no return-vec" indication; per-op results are attached to the reply
    exactly when it is not set. *)
Definition attaches_out_data (r : MOSDOpReply) : bool :=
  negb (reply_ignore_out_data r).

(** The classification of a request computed by [OpInfo::set_from_op]. *)
Record OpInfo := {
  may_read : bool;
  may_write : bool;
  may_cache : bool
}.

Definition OpInfo_default : OpInfo :=
  {| may_read := false; may_write := false; may_cache := false |}.

(** ** The placement group as the request sees it *)

(** Modelled from the spec: the role this node holds for the shard, which
    [PG::is_primary] and [PG::is_nonprimary] (declared in pg.h) report: the
    primary, a valid non-primary replica, or no role at all. *)
Inductive pg_role := role_primary | role_replica | role_none.

(** The state of a PG read by one synchronous stretch of code through its
    const methods. *)
Record PG := {
  get_role : pg_role;
  get_osdmap_epoch : epoch_t;
  can_discard_op : MOSDOp -> bool;
  (* the flag, and the content of [ver] after the call *)
  is_unreadable_object : hobject_t -> bool * eversion_t;
  is_degraded_or_backfilling_object : hobject_t -> bool;
  (* get_recovery_backend()->is_recovering(soid) *)
  is_recovering : hobject_t -> bool;
  (* get_peering_state().can_serve_replica_read(hoid) *)
  can_serve_replica_read : hobject_t -> bool;
  (* op_info.set_from_op(m, *get_osdmap()) *)
  set_from_op : MOSDOp -> OpInfo
}.

Definition is_primary (pg : PG) : bool :=
  match get_role pg with role_primary => true | _ => false end.

Definition is_nonprimary (pg : PG) : bool :=
  match get_role pg with role_replica => true | _ => false end.

(** ** The op sequencer of a (connection, shard) pair *)

(** Modelled from the spec: OpSequencer (osd_operation.h) keeps the id of the
    most recently issued operation; [get_last_issued] reads it. *)
Record OpSequencer := { last_issued : Z }.

Definition get_last_issued (s : OpSequencer) : Z := last_issued s.

(** [get_osd_priv(conn)]: the connection's table of sequencers.
    [op_sequencer[spg]] yields a fresh sequencer for a shard not seen yet, so
    the table reads as a total function. *)
Record OSDConnectionPriv := { op_sequencer : spg_t -> OpSequencer }.

(** ** The request object *)

Record ClientRequest := {
  conn : ConnectionRef;
  m : MOSDOp;
  prev_op_id : Z;
  op_info : OpInfo;
  get_id : Z
}.

(** [ClientRequest::ClientRequest]; [id] is the id the operation registry
    gives the new operation. *)
Definition ClientRequest_new (priv : OSDConnectionPriv) (conn : ConnectionRef)
    (m : MOSDOp) (id : Z) : ClientRequest :=
  {| conn := conn;
     m := m;
     prev_op_id := get_last_issued (op_sequencer priv (get_spg m));
     op_info := OpInfo_default;
     get_id := id |}.

Definition set_op_info (cr : ClientRequest) (oi : OpInfo) : ClientRequest :=
  {| conn := conn cr; m := m cr; prev_op_id := prev_op_id cr;
     op_info := oi; get_id := get_id cr |}.

(** ** Pure decisions *)

Section Decisions.
Context `{Rados}.

(** [ClientRequest::is_pg_op] *)
Definition is_pg_op (cr : ClientRequest) : bool :=
  existsb (fun op => ceph_osd_op_type_pg (op_code op)) (ops (m cr)).

(** [ClientRequest::is_misdirected] *)
Definition is_misdirected (cr : ClientRequest) (pg : PG) : bool :=
  let flags := get_flags (m cr) in
  if negb (Z.land flags CEPH_OSD_FLAG_BALANCE_READS =? 0)
     || negb (Z.land flags CEPH_OSD_FLAG_LOCALIZE_READS =? 0)
  then
    if negb (may_read (op_info cr)) then true
    else if may_write (op_info cr) || may_cache (op_info cr) then true
    else is_nonprimary pg
  else true.

(** The reply built in [process_op] for a request id that already completed
    with result [ret]. *)
Definition completed_reply (cr : ClientRequest) (pg : PG) (ret : Z) : MOSDOpReply :=
  {| reply_req := m cr;
     reply_result := ret;
     reply_epoch := get_osdmap_epoch pg;
     reply_acktype := Z.lor CEPH_OSD_FLAG_ACK CEPH_OSD_FLAG_ONDISK;
     reply_ignore_out_data := false |}.

(** The reply built in [do_process] when the replica cannot serve the read. *)
Definition eagain_reply (cr : ClientRequest) (pg : PG) : MOSDOpReply :=
  {| reply_req := m cr;
     reply_result := - EAGAIN;
     reply_epoch := get_osdmap_epoch pg;
     reply_acktype :=
       Z.land (get_flags (m cr)) (Z.lor CEPH_OSD_FLAG_ACK CEPH_OSD_FLAG_ONDISK);
     reply_ignore_out_data := negb (has_flag (m cr) CEPH_OSD_FLAG_RETURNVEC) |}.

End Decisions.

(** ** Futures and the calls on collaborators *)

(** The exceptions a failed future can carry. *)
Inductive exn :=
| actingset_changed (still_primary : bool)
| broken_condition_variable
| system_shutdown_exception
| other_exception.

(** A settled [seastar::future<A>]. *)
Inductive outcome (A : Type) :=
| Resolved (a : A)
| Failed (e : exn).
Arguments Resolved {A} a.
Arguments Failed {A} e.

Inductive stop_iteration := stop_no | stop_yes.

(** The errors of [PG::load_obc_ertr], and [ct_error::eagain]. *)
Inductive load_obc_error := object_corrupted | enoent.
Inductive eagain := ct_eagain.

(** Stages of the connection pipeline ([cp()]) and of a PG's pipeline
    ([pp(pg)]). *)
Inductive ConnectionPipeline := cp_await_map | cp_get_pg.
Inductive PGPipeline :=
  pp_await_map | pp_wait_for_active | pp_recover_missing | pp_get_obc | pp_process.
Inductive stage :=
| cp (s : ConnectionPipeline)
| pp (pg : PGRef) (s : PGPipeline).

(** The calls client_request.cc makes.  A call that returns a future is
    answered by an [outcome]; an errorated future answers [inl error] or
    [inr value] when it resolves.

    - [HandleEnter]: [handle.enter(stage)];
    - [OsdWaitForMap], [PgWaitForMap]: [osdmap_gate.wait_for_map] of the OSD
      and of the PG; [OsdWaitForPg]: [osd.wait_for_pg];
    - [SeqStartOp]: the wait at the head of [sequencer.start_op];
      [SeqFinishOp], [SeqMaybeReset], [SeqAbort]: the other sequencer calls,
      which return at once;
    - [Deref]: the state of the PG behind a [Ref<PG>] as the synchronous code
      that follows reads it ([*pgref], [pg->...]);
    - [OsdSendIncrementalMap]: [osd.send_incremental_map];
      [ConnSend]: [conn->send];
    - [PgWaitForActive]: [pg.wait_for_active_blocker.wait()];
      [PgDoPgOps]: [pg->do_pg_ops]; [PgDoOsdOps]: [pg->do_osd_ops];
      [PgAlreadyComplete]: [pg->already_complete];
      [PgWithLockedObc]: the acquisition in [pg->with_locked_obc];
    - [WaitForRecovered]: [get_recovering(soid).wait_for_recovered()];
      [StartUrgentRecovery]: [start_operation<UrgentRecovery>], answered when
      the recovery is over. *)
Variant osdE : Type -> Type :=
| HandleEnter (s : stage) : osdE (outcome unit)
| OsdWaitForMap (e : epoch_t) : osdE (outcome epoch_t)
| OsdWaitForPg (pgid : spg_t) : osdE (outcome PGRef)
| SeqStartOp (prev_op this_op : Z) : osdE (outcome unit)
| SeqFinishOp (op_id : Z) : osdE unit
| SeqMaybeReset (op_id : Z) : osdE unit
| SeqAbort : osdE unit
| Deref (pg : PGRef) : osdE PG
| OsdSendIncrementalMap (c : ConnectionRef) (first : epoch_t) : osdE (outcome unit)
| PgWaitForMap (pg : PGRef) (e : epoch_t) : osdE (outcome epoch_t)
| PgWaitForActive (pg : PGRef) : osdE (outcome unit)
| PgDoPgOps (pg : PGRef) (req : MOSDOp) : osdE (outcome MOSDOpReply)
| ConnSend (c : ConnectionRef) (reply : MOSDOpReply) : osdE (outcome unit)
| WaitForRecovered (pg : PGRef) (soid : hobject_t) : osdE (outcome unit)
| StartUrgentRecovery (soid : hobject_t) (need : eversion_t) (pg : PGRef)
    (epoch_started : epoch_t) : osdE (outcome unit)
| PgAlreadyComplete (pg : PGRef) (reqid : osd_reqid_t) : osdE (outcome (bool * Z))
| PgWithLockedObc (pg : PGRef) (req : MOSDOp) (oi : OpInfo)
    : osdE (outcome (load_obc_error + ObjectContextRef))
| PgDoOsdOps (pg : PGRef) (req : MOSDOp) (obc : ObjectContextRef) (oi : OpInfo)
    : osdE (outcome (eagain + MOSDOpReply)).

Section Futures.
Context {E : Type -> Type}.

Definition future (A : Type) := itree E (outcome A).

(** [seastar::now()] *)
Definition now : future unit := Ret (Resolved tt).

(** [f.then(k)]: a failed future skips the continuation. *)
Definition then_ {A B} (f : future A) (k : A -> future B) : future B :=
  r <- f;;
  match r with
  | Resolved a => k a
  | Failed e => Ret (Failed e)
  end.

(** A plain future used where an errorated one is expected. *)
Definition lift_ertr {Err A} (f : future A) : future (Err + A) :=
  then_ f (fun a => Ret (Resolved (inr a))).

(** [f.safe_then(k, h)]: [h] takes every error of the errorator; exceptions
    pass through. *)
Definition safe_then {Err A B} (f : future (Err + A))
    (k : A -> future B) (h : Err -> future B) : future B :=
  then_ f (fun v => match v with inr a => k a | inl c => h c end).

(** [f.handle_exception_type(h)]: [h] answers [None] on an exception of
    another type. *)
Definition handle_exception_type {A} (f : future A)
    (h : exn -> option (future A)) : future A :=
  r <- f;;
  match r with
  | Resolved a => Ret (Resolved a)
  | Failed e => match h e with Some t => t | None => Ret (Failed e) end
  end.

(** What [seastar::repeat] does with one settled iteration. *)
Definition repeat_next (r : outcome stop_iteration) : unit + outcome unit :=
  match r with
  | Resolved stop_no => inl tt
  | Resolved stop_yes => inr (Resolved tt)
  | Failed e => inr (Failed e)
  end.

(** [seastar::repeat(f)] *)
Definition repeat (f : future stop_iteration) : future unit :=
  ITree.iter (fun _ : unit => r <- f;; Ret (repeat_next r)) tt.

(** Modelled from the spec: [crimson::common::handle_system_shutdown]
    (exception.h) turns a "system shutting down" failure into a normal
    completion and lets every other outcome through. *)
Definition handle_system_shutdown (f : future unit) : future unit :=
  r <- f;;
  match r with
  | Failed system_shutdown_exception => Ret (Resolved tt)
  | _ => Ret r
  end.

End Futures.

(** ** ClientRequest *)

Section ClientRequest.
Context `{Rados}.

Section Calls.
Context {E : Type -> Type} `{osdE -< E}.

(** [with_blocking_future(handle.enter(stage))] *)
Definition enter (s : stage) : future (E := E) unit := trigger (HandleEnter s).

(** Modelled from the spec: [OpSequencer::start_op] (osd_operation.h) suspends
    until the operation [prev_op] is out of the way, then runs the body and
    returns its result. *)
Definition start_op {A} (prev_op this_op : Z) (body : future (E := E) A) : future A :=
  then_ (trigger (SeqStartOp prev_op this_op)) (fun _ => body).

(** Modelled from the spec: [PG::with_locked_obc] (pg.h) acquires the locked
    object context of the request's object, which may fail with an error of
    [load_obc_ertr], and runs the callback on it. *)
Definition with_locked_obc {A} (pg : PGRef) (req : MOSDOp) (oi : OpInfo)
    (f : ObjectContextRef -> future (E := E) A) : future (load_obc_error + A) :=
  then_ (trigger (PgWithLockedObc pg req oi)) (fun r =>
    match r with
    | inl c => Ret (Resolved (inl c))
    | inr obc => lift_ertr (f obc)
    end).

(** [ClientRequest::process_pg_op] *)
Definition process_pg_op (cr : ClientRequest) (pg : PGRef) : future (E := E) unit :=
  then_ (trigger (PgDoPgOps pg (m cr))) (fun reply =>
    trigger (ConnSend (conn cr) reply)).

(** [ClientRequest::do_recover_missing] *)
Definition do_recover_missing (cr : ClientRequest) (pgref : PGRef) : future (E := E) unit :=
  pg <- trigger (Deref pgref);;
  let soid := get_hobj (m cr) in
  let (unreadable, ver) := is_unreadable_object pg soid in
  if negb unreadable && negb (is_degraded_or_backfilling_object pg soid) then
    now
  else if is_recovering pg soid then
    trigger (WaitForRecovered pgref soid)
  else
    trigger (StartUrgentRecovery soid ver pgref (get_osdmap_epoch pg)).

(** The mutually recursive pair [process_op]/[do_process], open in the
    recursive call. *)
Section ObjectOpPath.
Variable process_op_rec : ClientRequest * PGRef -> future (E := E) unit.

(** [ClientRequest::do_process] *)
Definition do_process (cr : ClientRequest) (pgref : PGRef) (obc : ObjectContextRef)
    : future (E := E) unit :=
  let execute :=
    safe_then (trigger (PgDoOsdOps pgref (m cr) obc (op_info cr)))
      (fun reply => trigger (ConnSend (conn cr) reply))
      (fun _ => process_op_rec (cr, pgref)) in
  pg <- trigger (Deref pgref);;
  if negb (is_primary pg) then
    if is_misdirected cr pg then
      now
    else if negb (can_serve_replica_read pg (get_hobj (m cr))) then
      trigger (ConnSend (conn cr) (eagain_reply cr pg))
    else execute
  else execute.

(** [ClientRequest::process_op].  [op_info] is the one field of the request
    written after construction; [set_from_op] writes it here before anything
    reads it, so the updated request is handed down to [do_process] and to
    the recursive call. *)
Definition process_op_body (a : ClientRequest * PGRef) : future (E := E) unit :=
  let (cr, pgref) := a in
  safe_then
    (then_ (enter (pp pgref pp_recover_missing)) (fun _ =>
     then_ (do_recover_missing cr pgref) (fun _ =>
     then_ (trigger (PgAlreadyComplete pgref (get_reqid (m cr)))) (fun cpl =>
       let (completed, ret) := (cpl : bool * Z) in
       if completed then
         pg <- trigger (Deref pgref);;
         lift_ertr (trigger (ConnSend (conn cr) (completed_reply cr pg ret)))
       else
         then_ (enter (pp pgref pp_get_obc)) (fun _ =>
           pg <- trigger (Deref pgref);;
           let cr' := set_op_info cr (set_from_op pg (m cr)) in
           with_locked_obc pgref (m cr') (op_info cr') (fun obc =>
             then_ (enter (pp pgref pp_process)) (fun _ =>
               do_process cr' pgref obc)))))))
    (fun _ => now)
    (fun _ : load_obc_error => now).

End ObjectOpPath.
End Calls.

(** [ClientRequest::process_op], the recursion closed. *)
Definition process_op : ClientRequest * PGRef -> future (E := osdE) unit :=
  rec (process_op_body (E := callE _ _ +' osdE) call).

(** The continuation handed to [sequencer.start_op].  The lazy decoding of
    the message ([finish_decode], [clear_payload]) has no counterpart: [m] is
    the decoded message. *)
Definition body (cr : ClientRequest) (pgref : PGRef) : future (E := osdE) unit :=
  pg <- trigger (Deref pgref);;
  if can_discard_op pg (m cr) then
    trigger (OsdSendIncrementalMap (conn cr) (get_map_epoch (m cr)))
  else
    then_ (enter (pp pgref pp_await_map)) (fun _ =>
    then_ (trigger (PgWaitForMap pgref (get_min_epoch (m cr)))) (fun _ =>
    then_ (enter (pp pgref pp_wait_for_active)) (fun _ =>
    then_ (trigger (PgWaitForActive pgref)) (fun _ =>
      if is_pg_op cr then process_pg_op cr pgref
      else process_op (cr, pgref))))).

(** The handler for [crimson::common::actingset_changed]. *)
Definition on_actingset_changed (cr : ClientRequest) (e : exn)
    : option (future (E := osdE) stop_iteration) :=
  match e with
  | actingset_changed true =>
      Some (trigger (SeqMaybeReset (get_id cr));; Ret (Resolved stop_no))
  | actingset_changed false =>
      Some (trigger SeqAbort;; Ret (Resolved stop_yes))
  | _ => None
  end.

(** The handler for [seastar::broken_condition_variable]. *)
Definition on_broken_condition_variable (e : exn)
    : option (future (E := osdE) stop_iteration) :=
  match e with
  | broken_condition_variable => Some (Ret (Resolved stop_yes))
  | _ => None
  end.

(** What [start] chains on the sequenced part [t]: [finish_op] on success, and
    the two exception handlers. *)
Definition guarded (cr : ClientRequest) (t : future (E := osdE) unit)
    : future (E := osdE) stop_iteration :=
  handle_exception_type
    (handle_exception_type
       (then_ t (fun _ =>
          trigger (SeqFinishOp (get_id cr));; Ret (Resolved stop_yes)))
       (on_actingset_changed cr))
    on_broken_condition_variable.

(** One round of the [seastar::repeat] loop of [start]. *)
Definition iteration (cr : ClientRequest) : future (E := osdE) stop_iteration :=
  then_ (enter (cp cp_await_map)) (fun _ =>
  then_ (trigger (OsdWaitForMap (get_min_epoch (m cr)))) (fun _ =>
  then_ (enter (cp cp_get_pg)) (fun _ =>
  then_ (trigger (OsdWaitForPg (get_spg (m cr)))) (fun pgref =>
    guarded cr (start_op (prev_op_id cr) (get_id cr) (body cr pgref)))))).

(** [ClientRequest::start] *)
Definition start (cr : ClientRequest) : future (E := osdE) unit :=
  handle_system_shutdown (repeat (iteration cr)).

(** The operation while its current round still has [t] to run: the rest of
    the [repeat] loop and the shutdown handler around it. *)
Definition in_round (cr : ClientRequest) (t : future (E := osdE) stop_iteration)
    : future (E := osdE) unit :=
  handle_system_shutdown
    (r <- t;;
     match repeat_next r with
     | inl _ => repeat (iteration cr)
     | inr r' => Ret r'
     end).

End ClientRequest.

(** ** Calls made and what remains to run *)

(** A call together with the answer the environment gave. *)
Inductive answered (E : Type -> Type) : Type :=
| Answered : forall {X}, E X -> X -> answered E.
Arguments Answered {E X} e x.

(** [after t calls u]: [t] makes the calls [calls], receiving the recorded
    answers, and what remains to run is [u]. *)
Inductive after {E : Type -> Type} {R : Type}
  : itree E R -> list (answered E) -> itree E R -> Prop :=
| after_nil t u : t ≈ u -> after t [] u
| after_cons t X (e : E X) (x : X) k evs u :
    t ≈ Vis e k -> after (k x) evs u -> after t (Answered e x :: evs) u.

(** The calls as a trace of the interaction tree library, ending in [tl]. *)
Fixpoint trace_of {E R} (evs : list (answered E)) (tl : @trace E R) : @trace E R :=
  match evs with
  | [] => tl
  | Answered e x :: evs' => TEventResponse e x (trace_of evs' tl)
  end.

(** [Q] up to silent steps. *)
Definition upto {E R} (Q : answered E -> itree E R -> Prop) (ev : answered E)
    (u : itree E R) : Prop :=
  exists u', u ≈ u' /\ Q ev u'.

(** [last_call n t Q]: whenever [t] has made at most [n] calls, [Q] relates
    the last of them to what remains to run. *)
Definition last_call {E R} (n : nat) (t : itree E R)
    (Q : answered E -> itree E R -> Prop) : Prop :=
  forall pre ev u, (length pre < n)%nat -> after t (pre ++ [ev]) u -> upto Q ev u.

(** The calls with their answers as plain data. *)
Inductive call_view :=
| VHandleEnter (s : stage) (r : outcome unit)
| VOsdWaitForMap (e : epoch_t) (r : outcome epoch_t)
| VOsdWaitForPg (pgid : spg_t) (r : outcome PGRef)
| VSeqStartOp (prev_op this_op : Z) (r : outcome unit)
| VSeqFinishOp (op_id : Z)
| VSeqMaybeReset (op_id : Z)
| VSeqAbort
| VDeref (pgref : PGRef) (pg : PG)
| VOsdSendIncrementalMap (c : ConnectionRef) (first : epoch_t) (r : outcome unit)
| VPgWaitForMap (pg : PGRef) (e : epoch_t) (r : outcome epoch_t)
| VPgWaitForActive (pg : PGRef) (r : outcome unit)
| VPgDoPgOps (pg : PGRef) (req : MOSDOp) (r : outcome MOSDOpReply)
| VConnSend (c : ConnectionRef) (reply : MOSDOpReply) (r : outcome unit)
| VWaitForRecovered (pg : PGRef) (soid : hobject_t) (r : outcome unit)
| VStartUrgentRecovery (soid : hobject_t) (need : eversion_t) (pg : PGRef)
    (epoch_started : epoch_t) (r : outcome unit)
| VPgAlreadyComplete (pg : PGRef) (reqid : osd_reqid_t) (r : outcome (bool * Z))
| VPgWithLockedObc (pg : PGRef) (req : MOSDOp) (oi : OpInfo)
    (r : outcome (load_obc_error + ObjectContextRef))
| VPgDoOsdOps (pg : PGRef) (req : MOSDOp) (obc : ObjectContextRef) (oi : OpInfo)
    (r : outcome (eagain + MOSDOpReply)).

Definition view (ev : answered osdE) : call_view :=
  match ev with
  | Answered e x =>
    match e in osdE X return X -> call_view with
    | HandleEnter s => VHandleEnter s
    | OsdWaitForMap e => VOsdWaitForMap e
    | OsdWaitForPg p => VOsdWaitForPg p
    | SeqStartOp p i => VSeqStartOp p i
    | SeqFinishOp i => fun _ => VSeqFinishOp i
    | SeqMaybeReset i => fun _ => VSeqMaybeReset i
    | SeqAbort => fun _ => VSeqAbort
    | Deref p => VDeref p
    | OsdSendIncrementalMap c f => VOsdSendIncrementalMap c f
    | PgWaitForMap p e => VPgWaitForMap p e
    | PgWaitForActive p => VPgWaitForActive p
    | PgDoPgOps p r => VPgDoPgOps p r
    | ConnSend c r => VConnSend c r
    | WaitForRecovered p s => VWaitForRecovered p s
    | StartUrgentRecovery s n p e => VStartUrgentRecovery s n p e
    | PgAlreadyComplete p r => VPgAlreadyComplete p r
    | PgWithLockedObc p r o => VPgWithLockedObc p r o
    | PgDoOsdOps p r o i => VPgDoOsdOps p r o i
    end x
  end.

Definition outcome_failure {A} (r : outcome A) : option exn :=
  match r with Failed e => Some e | Resolved _ => None end.

(** The exception a call failed with, if it failed. *)
Definition failure (ev : answered osdE) : option exn :=
  match view ev with
  | VHandleEnter _ r | VSeqStartOp _ _ r | VOsdSendIncrementalMap _ _ r
  | VPgWaitForActive _ r | VConnSend _ _ r | VWaitForRecovered _ _ r
  | VStartUrgentRecovery _ _ _ _ r => outcome_failure r
  | VOsdWaitForMap _ r | VPgWaitForMap _ _ r => outcome_failure r
  | VOsdWaitForPg _ r => outcome_failure r
  | VPgDoPgOps _ _ r => outcome_failure r
  | VPgAlreadyComplete _ _ r => outcome_failure r
  | VPgWithLockedObc _ _ _ r => outcome_failure r
  | VPgDoOsdOps _ _ _ _ r => outcome_failure r
  | VSeqFinishOp _ | VSeqMaybeReset _ | VSeqAbort | VDeref _ _ => None
  end.

(** Calls made from [sequencer.start_op] on, as opposed to the four waits
    that precede it in each round and lie outside the exception handlers. *)
Definition in_sequenced (ev : answered osdE) : bool :=
  match view ev with
  | VHandleEnter (cp _) _ | VOsdWaitForMap _ _ | VOsdWaitForPg _ _ => false
  | _ => true
  end.

(** The sequencer calls [start] makes once the sequenced part has settled. *)
Definition is_bookkeeping (ev : answered osdE) : bool :=
  match view ev with
  | VSeqFinishOp _ | VSeqMaybeReset _ | VSeqAbort => true
  | _ => false
  end.

Definition is_sequencer_call (ev : answered osdE) : bool :=
  match view ev with
  | VSeqStartOp _ _ _ | VSeqFinishOp _ | VSeqMaybeReset _ | VSeqAbort => true
  | _ => false
  end.

(** The calls of the object op path: stage entries, reads of the PG, the
    recovery waits, the idempotence query, the object lock, the execution and
    the reply. *)
Definition object_op_call (ev : answered osdE) : bool :=
  match view ev with
  | VHandleEnter (pp _ (pp_recover_missing | pp_get_obc | pp_process)) _
  | VDeref _ _ | VWaitForRecovered _ _ _ | VStartUrgentRecovery _ _ _ _ _
  | VPgAlreadyComplete _ _ _ | VPgWithLockedObc _ _ _ _ | VPgDoOsdOps _ _ _ _ _
  | VConnSend _ _ _ => true
  | _ => false
  end.

(** A failed call settles the whole future with the same exception. *)
Definition fails_through {A} (ev : answered osdE) (u : future (E := osdE) A) : Prop :=
  forall x, failure ev = Some x -> u ≈ Ret (Failed x).


(** The shard reported the request id as completed with result [ret]. *)
Definition already_completed (ret : Z) (ev : answered osdE) : Prop :=
  exists pg q, view ev = VPgAlreadyComplete pg q (Resolved (true, ret)).


Definition start_op_args (cr : ClientRequest) (ev : answered osdE) : Prop :=
  forall p i r, view ev = VSeqStartOp p i r -> p = prev_op_id cr /\ i = get_id cr.

(** The operation acts for its own request: every argument of a call that
    names the connection, the message, the request id, the object, an epoch
    bound, the shard id or a sequencer id is read from the request. *)
Definition own_call (cr : ClientRequest) (ev : answered osdE) : Prop :=
  match view ev with
  | VHandleEnter _ _ | VSeqAbort | VDeref _ _ | VPgWaitForActive _ _ => True
  | VOsdWaitForMap e _ => e = get_min_epoch (m cr)
  | VPgWaitForMap _ e _ => e = get_min_epoch (m cr)
  | VOsdWaitForPg pgid _ => pgid = get_spg (m cr)
  | VSeqStartOp p i _ => p = prev_op_id cr /\ i = get_id cr
  | VSeqFinishOp i | VSeqMaybeReset i => i = get_id cr
  | VOsdSendIncrementalMap c e _ => c = conn cr /\ e = get_map_epoch (m cr)
  | VPgDoPgOps _ req _ => req = m cr
  | VConnSend c _ _ => c = conn cr
  | VWaitForRecovered _ soid _ => soid = get_hobj (m cr)
  | VStartUrgentRecovery soid _ _ _ _ => soid = get_hobj (m cr)
  | VPgAlreadyComplete _ q _ => q = get_reqid (m cr)
  | VPgWithLockedObc _ req _ _ => req = m cr
  | VPgDoOsdOps _ req _ _ _ => req = m cr
  end.

(** The PG a call addresses, if it addresses one. *)
Definition call_pg (ev : answered osdE) : option PGRef :=
  match view ev with
  | VHandleEnter (pp pg _) _ | VDeref pg _ | VPgWaitForMap pg _ _
  | VPgWaitForActive pg _ | VPgDoPgOps pg _ _ | VWaitForRecovered pg _ _
  | VStartUrgentRecovery _ _ pg _ _ | VPgAlreadyComplete pg _ _
  | VPgWithLockedObc pg _ _ _ | VPgDoOsdOps pg _ _ _ _ => Some pg
  | _ => None
  end.

(** The calls that only [process_op] and [do_process] make. *)
Definition only_in_object_path (ev : answered osdE) : bool :=
  match view ev with
  | VHandleEnter (pp _ (pp_recover_missing | pp_get_obc | pp_process)) _
  | VWaitForRecovered _ _ _ | VStartUrgentRecovery _ _ _ _ _
  | VPgAlreadyComplete _ _ _ | VPgWithLockedObc _ _ _ _ | VPgDoOsdOps _ _ _ _ _ => true
  | _ => false
  end.

(** The execution resolved with [reply]. *)
Definition was_executed (reply : MOSDOpReply) (ev : answered osdE) : Prop :=
  exists pg req obc oi, view ev = VPgDoOsdOps pg req obc oi (Resolved (inr reply)).

(** The object context could not be loaded: an error of [load_obc_ertr]. *)
Definition lock_failed (ev : answered osdE) : Prop :=
  exists pg req oi c, view ev = VPgWithLockedObc pg req oi (Resolved (inl c)).

(** The object lock was taken, for classification [oi], on context [obc]. *)
Definition lock_taken (oi : OpInfo) (obc : ObjectContextRef) (ev : answered osdE) : Prop :=
  exists pg req, view ev = VPgWithLockedObc pg req oi (Resolved (inr obc)).

(** A recovery wait of [do_recover_missing] resolved. *)
Definition recovered (ev : answered osdE) : Prop :=
  match view ev with
  | VWaitForRecovered _ _ (Resolved _) | VStartUrgentRecovery _ _ _ _ (Resolved _) => True
  | _ => False
  end.

(** What is left of a round after each of the sequencer calls that close it. *)
Definition round_over (ev : answered osdE) (ui : future (E := osdE) stop_iteration) : Prop :=
  match view ev with
  | VSeqFinishOp _ | VSeqAbort => ui ≈ Ret (Resolved stop_yes)
  | VSeqMaybeReset _ => ui ≈ Ret (Resolved stop_no)
  | _ => True
  end.

(** The PG [pgref] reported itself active. *)
Definition activated (pgref : PGRef) (ev : answered osdE) : Prop :=
  view ev = VPgWaitForActive pgref (Resolved tt).

Section Residuals.
Context `{Rados}.

(** The handler that closes the recursion of [process_op]. *)
Definition osd_rec
    : (callE (ClientRequest * PGRef) (outcome unit) +' osdE) ~> itree osdE :=
  recursive (process_op_body (E := callE _ _ +' osdE) call).

(** What the operation does once its sequenced part failed with [x]. *)
Definition on_failure (cr : ClientRequest) (x : exn) : future (E := osdE) unit :=
  in_round cr (guarded cr (Ret (Failed x))).

(** Read the PG's epoch and send the reply for a completed request id. *)
Definition send_completed_reply (cr : ClientRequest) (pgref : PGRef) (ret : Z)
    : future (E := osdE) unit :=
  pg <- trigger (Deref pgref);;
  trigger (ConnSend (conn cr) (completed_reply cr pg ret)).

End Residuals.

Section Continuations.
Context `{Rados}.

(** What the operation does once its sequenced part settled with [r]:
    [finish_op] and a normal end, or the handlers. *)
Definition finish_or_fail (cr : ClientRequest) (r : outcome unit)
    : future (E := osdE) unit :=
  match r with
  | Resolved _ => trigger (SeqFinishOp (get_id cr));; Ret (Resolved tt)
  | Failed x => on_failure cr x
  end.

(** The callback [process_op] hands to [with_locked_obc], on the locked
    context [obc] of a request classified as [oi]. *)
Definition process_locked (cr : ClientRequest) (pgref : PGRef) (oi : OpInfo)
    (obc : ObjectContextRef) : future (E := osdE) unit :=
  then_ (enter (pp pgref pp_process))
    (fun _ => do_process process_op (set_op_info cr oi) pgref obc).

(** How [start] ends on an exception that no handler of the round saw. *)
Definition escapes (x : exn) : future (E := osdE) unit :=
  match x with
  | system_shutdown_exception => Ret (Resolved tt)
  | _ => Ret (Failed x)
  end.

End Continuations.

(** ** Concrete requests, shards and runs *)

(** The values of include/rados/rados.h and of errno.h on Linux. *)
Definition rados_h : Rados := {|
  CEPH_OSD_FLAG_ACK := 0x0001;
  CEPH_OSD_FLAG_ONDISK := 0x0004;
  CEPH_OSD_FLAG_BALANCE_READS := 0x0100;
  CEPH_OSD_FLAG_LOCALIZE_READS := 0x2000;
  CEPH_OSD_FLAG_RETURNVEC := 0x4000000;
  ceph_osd_op_type_pg := fun op => Z.land op 0x0f00 =? 0x0500;
  EAGAIN := 11
|}.

(** A balanced read (BALANCE_READS | ONDISK) of object 7 in shard 3. *)
Definition msg0 : MOSDOp :=
  {| get_spg := 3; get_min_epoch := 10; get_map_epoch := 12;
     get_flags := 0x0104; get_hobj := 7; get_reqid := 42;
     ops := [ {| op_code := 0x1201 |} ] |}.

Definition priv0 : OSDConnectionPriv :=
  {| op_sequencer := fun _ => {| last_issued := 5 |} |}.

(** The request for [msg0] on connection 1, registered as operation 6. *)
Definition cr0 : ClientRequest := ClientRequest_new priv0 1 msg0 6.

Definition read_only : OpInfo :=
  {| may_read := true; may_write := false; may_cache := false |}.

(** [cr0] once [process_op] has classified it. *)
Definition cr_read : ClientRequest := set_op_info cr0 read_only.

Definition no_version : eversion_t := {| ev_epoch := 0; ev_version := 0 |}.

(** A healthy shard at epoch 12 with the given role and object state. *)
Definition shard (role : pg_role) (discard unreadable degraded recovering
    servable : bool) : PG :=
  {| get_role := role;
     get_osdmap_epoch := 12;
     can_discard_op := fun _ => discard;
     is_unreadable_object := fun _ => (unreadable, no_version);
     is_degraded_or_backfilling_object := fun _ => degraded;
     is_recovering := fun _ => recovering;
     can_serve_replica_read := fun _ => servable;
     set_from_op := fun _ => read_only |}.

Definition pg_primary : PG := shard role_primary false false false false true.
Definition pg_replica : PG := shard role_replica false false false false true.
Definition pg_no_role : PG := shard role_none false false false false false.
(** A valid non-primary replica that cannot serve replica reads. *)
Definition pg_unservable : PG := shard role_replica false false false false false.
Definition pg_recovering : PG := shard role_primary false false true true true.

(** The four waits of a round, all resolved; the shard is PG 1. *)
Definition admission0 : list (answered osdE) :=
  [ Answered (HandleEnter (cp cp_await_map)) (Resolved tt);
    Answered (OsdWaitForMap 10) (Resolved 10);
    Answered (HandleEnter (cp cp_get_pg)) (Resolved tt);
    Answered (OsdWaitForPg 3) (Resolved 1) ].

(** The object op path of [cr0] up to the execution call. *)
Definition object_path0 : list (answered osdE) :=
  [ Answered (HandleEnter (pp 1 pp_recover_missing)) (Resolved tt);
    Answered (Deref 1) pg_primary;
    Answered (PgAlreadyComplete 1 42) (Resolved (false, 0));
    Answered (HandleEnter (pp 1 pp_get_obc)) (Resolved tt);
    Answered (Deref 1) pg_primary;
    Answered (PgWithLockedObc 1 msg0 read_only) (Resolved (inr 9));
    Answered (HandleEnter (pp 1 pp_process)) (Resolved tt);
    Answered (Deref 1) pg_primary ].

(** A round of [cr0] on the primary up to the execution call. *)
Definition round0 : list (answered osdE) :=
  admission0 ++
  [ Answered (SeqStartOp 5 6) (Resolved tt);
    Answered (Deref 1) pg_primary;
    Answered (HandleEnter (pp 1 pp_await_map)) (Resolved tt);
    Answered (PgWaitForMap 1 10) (Resolved 10);
    Answered (HandleEnter (pp 1 pp_wait_for_active)) (Resolved tt);
    Answered (PgWaitForActive 1) (Resolved tt) ] ++
  object_path0.

(** The execution call of [cr0], answered by [r]. *)
Definition executed (r : outcome (eagain + MOSDOpReply)) : answered osdE :=
  Answered (PgDoOsdOps 1 msg0 9 read_only) r.

(** The first three waits of a round of [cr0], resolved. *)
Definition to_get_pg0 : list (answered osdE) :=
  [ Answered (HandleEnter (cp cp_await_map)) (Resolved tt);
    Answered (OsdWaitForMap 10) (Resolved 10);
    Answered (HandleEnter (cp cp_get_pg)) (Resolved tt) ].

Definition activated0 : answered osdE :=
  Answered (PgWaitForActive 1) (Resolved tt).

(** The sequenced part of [cr0] on the primary up to the wait for an active
    PG. *)
Definition sequenced0 : list (answered osdE) :=
  [ Answered (SeqStartOp 5 6) (Resolved tt);
    Answered (Deref 1) pg_primary;
    Answered (HandleEnter (pp 1 pp_await_map)) (Resolved tt);
    Answered (PgWaitForMap 1 10) (Resolved 10);
    Answered (HandleEnter (pp 1 pp_wait_for_active)) (Resolved tt) ].

(** The object op path of [cr0] up to the object lock. *)
Definition to_lock0 : list (answered osdE) :=
  [ Answered (HandleEnter (pp 1 pp_recover_missing)) (Resolved tt);
    Answered (Deref 1) pg_primary;
    Answered (PgAlreadyComplete 1 42) (Resolved (false, 0));
    Answered (HandleEnter (pp 1 pp_get_obc)) (Resolved tt);
    Answered (Deref 1) pg_primary ].

(** A request that carries a read and a PGLS (a PG op) for shard 3. *)
Definition msg_pgls : MOSDOp :=
  {| get_spg := 3; get_min_epoch := 10; get_map_epoch := 12;
     get_flags := 0x0004; get_hobj := 7; get_reqid := 43;
     ops := [ {| op_code := 0x1201 |}; {| op_code := 0x1501 |} ] |}.

Definition cr_pgls : ClientRequest := ClientRequest_new priv0 1 msg_pgls 6.

Definition read_write : OpInfo :=
  {| may_read := true; may_write := true; may_cache := false |}.

(** [cr0] classified as a write. *)
Definition cr_write : ClientRequest := set_op_info cr0 read_write.

(** A reply of the execution to [msg0]. *)
Definition reply0 : MOSDOpReply :=
  {| reply_req := msg0; reply_result := 0; reply_epoch := 12;
     reply_acktype := 4; reply_ignore_out_data := true |}.

(** ** Facts about [after] and [last_call] *)

Section AfterFacts.
Context {E : Type -> Type}.

Lemma after_eutt_l {R} (t t' : itree E R) evs u : t ≈ t' -> after t evs u -> after t' evs u.
Proof.
  intros H A. destruct A.
  - constructor. now rewrite <- H.
  - econstructor; eauto. now rewrite <- H.
Qed.

Lemma after_eutt_r {R} (t : itree E R) evs u u' : u ≈ u' -> after t evs u -> after t evs u'.
Proof.
  intros H A. induction A.
  - constructor. now rewrite <- H.
  - econstructor; eauto.
Qed.

Lemma after_Proper {R} :
  Proper (eutt eq ==> eq ==> eutt eq ==> iff)%signature (@after E R).
Proof.
  intros t t' Ht evs ? <- u u' Hu. split; intros A.
  - eapply after_eutt_l; [exact Ht|]. eapply after_eutt_r; eauto.
  - eapply after_eutt_l; [symmetry; exact Ht|].
    eapply after_eutt_r; [symmetry; exact Hu|exact A].
Qed.

Lemma after_refl {R} (t : itree E R) : after t [] t.
Proof. constructor. reflexivity. Qed.

Lemma after_nil_inv {R} (t u : itree E R) : after t [] u -> t ≈ u.
Proof. intros A. now inversion A. Qed.

Lemma after_ret_inv {R} (r : R) evs u : after (Ret r : itree E R) evs u -> evs = [] /\ u ≈ Ret r.
Proof.
  intros A. inversion A as [t0 u0 H|t0 X e x k evs0 u0 H A']; subst.
  - split; auto. now symmetry.
  - exfalso. apply eqit_inv in H. cbn in H. exact H.
Qed.

Lemma after_vis_inv {R} X (e : E X) (k : X -> itree E R) ev evs u :
  after (Vis e k) (ev :: evs) u -> exists x, ev = Answered e x /\ after (k x) evs u.
Proof.
  intros A. inversion A as [|t0 X' e' x k' evs0 u0 H A']; subst.
  apply eqit_inv_Vis_weak in H. destruct H as [p [He Hk]].
  destruct p. cbn in He, Hk. subst. exists x. split; auto.
  eapply after_eutt_l; [symmetry; apply Hk | exact A'].
Qed.

Lemma after_app {R} (t : itree E R) evs1 evs2 u :
  after t (evs1 ++ evs2) u <-> exists u', after t evs1 u' /\ after u' evs2 u.
Proof.
  revert t. induction evs1 as [|ev evs1 IH]; intros t; cbn.
  - split.
    + intros A. exists t. split; [apply after_refl|exact A].
    + intros [u' [A1 A2]]. apply after_nil_inv in A1.
      eapply after_eutt_l; [symmetry; exact A1|exact A2].
  - split.
    + intros A. inversion A as [|t0 X e x k evs0 u0 H A']; subst.
      apply IH in A'. destruct A' as [u' [A1 A2]].
      exists u'. split; auto. econstructor; eauto.
    + intros [u' [A1 A2]]. inversion A1 as [|t0 X e x k evs0 u0 H A']; subst.
      econstructor; eauto. apply IH. eauto.
Qed.

Lemma after_bind_inv {A B} (t : itree E A) (k : A -> itree E B) evs u :
  after (ITree.bind t k) evs u ->
  (exists u', after t evs u' /\ u ≈ ITree.bind u' k) \/
  (exists evs1 evs2 r, evs = evs1 ++ evs2 /\ evs2 <> [] /\
      after t evs1 (Ret r) /\ after (k r) evs2 u).
Proof.
  revert t. induction evs as [|ev evs IH]; intros t Aft.
  - left. exists t. split; [apply after_refl|]. symmetry. now apply after_nil_inv.
  - inversion Aft as [|t0 X e x k' evs0 u0 H A']; subst.
    apply eutt_inv_bind_vis in H. destruct H as [[kca [Ht Hk]]|[a [Ht Hk]]].
    + assert (A'' : after (ITree.bind (kca x) k) evs u)
        by (eapply after_eutt_l; [symmetry; apply Hk|exact A']).
      apply IH in A''. destruct A'' as [[u' [A1 Hu]]|[evs1 [evs2 [r [-> [Hne [A1 A2]]]]]]].
      * left. exists u'. split; auto. econstructor; eauto.
      * right. exists (Answered e x :: evs1), evs2, r. repeat split; auto.
        econstructor; eauto.
    + right. exists [], (Answered e x :: evs), a. repeat split; try discriminate.
      * constructor. exact Ht.
      * econstructor; eauto.
Qed.

Lemma after_obs_vis {R X} (t : itree E R) (e : E X) k x evs u :
  observe t = VisF e k -> after (k x) evs u -> after t (Answered e x :: evs) u.
Proof.
  intros Ho A. eapply after_cons; [|exact A].
  rewrite (itree_eta t), Ho. reflexivity.
Qed.

Lemma after_obs_tau {R} (t t' : itree E R) evs u :
  observe t = TauF t' -> after t' evs u -> after t evs u.
Proof.
  intros Ho A. eapply after_eutt_l; [|exact A].
  rewrite (itree_eta t), Ho. rewrite tau_eutt. reflexivity.
Qed.

(** [after] against the library's traces: [t] has the trace made of [evs]
    followed by [tl] exactly when some [u] remains after [evs] that has the
    trace [tl]. *)
Lemma after_is_trace {R} (t u : itree E R) evs tl :
  after t evs u -> is_trace u tl -> is_trace t (trace_of evs tl).
Proof.
  intros A. induction A as [t u Hu|t X e x k evs u Ht A IH]; intros Htl; cbn.
  - apply (eutt_trace_eq _ _ Hu). exact Htl.
  - apply (eutt_trace_eq _ _ Ht). red. cbn. constructor. apply IH. exact Htl.
Qed.

Lemma is_trace_after {R} (t : itree E R) evs tl :
  is_trace t (trace_of evs tl) -> exists u, after t evs u /\ is_trace u tl.
Proof.
  revert t. induction evs as [|[X e x] evs IH]; intros t Ht; cbn in Ht.
  - exists t. split; [apply after_refl|exact Ht].
  - red in Ht. remember (observe t) as ot eqn:Hot.
    remember (TEventResponse e x (trace_of evs tl)) as tr eqn:Htr.
    revert t Hot. induction Ht; intros t' Hot; try discriminate.
    + destruct (IHHt Htr t eq_refl) as [u [A Hu]].
      exists u. split; [|exact Hu]. eapply after_obs_tau; eauto.
    + apply eq_trace_inv in Htr. destruct Htr as [p [He [Hx Htr]]].
      destruct p. cbn in He, Hx. subst.
      destruct (IH (k x) Ht) as [u [A Hu]].
      exists u. split; [|exact Hu]. eapply after_obs_vis; eauto.
Qed.

Lemma after_iff_is_trace {R} (t : itree E R) evs tl :
  (exists u, after t evs u /\ is_trace u tl) <-> is_trace t (trace_of evs tl).
Proof.
  split.
  - intros [u [A Hu]]. eapply after_is_trace; eauto.
  - apply is_trace_after.
Qed.

(** *** Rules for [last_call] *)

Lemma upto_intro {R} (Q : answered E -> itree E R -> Prop) ev u : Q ev u -> upto Q ev u.
Proof. intros. exists u. split; [reflexivity|assumption]. Qed.

Lemma upto_eutt {R} (Q : answered E -> itree E R -> Prop) ev u u' :
  u ≈ u' -> upto Q ev u' -> upto Q ev u.
Proof. intros Hu [u2 [Hu2 HQ]]. exists u2. split; [now rewrite Hu|assumption]. Qed.

Lemma lc_zero {R} (t : itree E R) Q : last_call 0 t Q.
Proof. intros pre ev u Hn. lia. Qed.

Lemma lc_mono {R} n n' (t : itree E R) Q : (n' <= n)%nat -> last_call n t Q -> last_call n' t Q.
Proof. intros Hle L pre ev u Hn A. eapply L; eauto. lia. Qed.

Lemma lc_eutt {R} n (t t' : itree E R) Q : t ≈ t' -> last_call n t' Q -> last_call n t Q.
Proof. intros Ht L pre ev u Hn A. eapply L; eauto. eapply after_eutt_l; eauto. Qed.

Lemma lc_conseq {R} n (t : itree E R) (Q Q' : answered E -> itree E R -> Prop) :
  (forall ev u, Q ev u -> upto Q' ev u) -> last_call n t Q -> last_call n t Q'.
Proof.
  intros HQ L pre ev u Hn A. destruct (L _ _ _ Hn A) as [u' [Hu HQu]].
  eapply upto_eutt; eauto.
Qed.

Lemma lc_ret {R} n (r : R) Q : last_call n (Ret r : itree E R) Q.
Proof.
  intros pre ev u Hn A. apply after_ret_inv in A. destruct A as [A _].
  destruct pre; discriminate.
Qed.

Lemma lc_vis_S {R} n X (e : E X) (k : X -> itree E R) (Q : answered E -> itree E R -> Prop) :
  (forall x, upto Q (Answered e x) (k x)) ->
  (forall x, last_call n (k x) Q) ->
  last_call (S n) (Vis e k) Q.
Proof.
  intros HQ Hk pre ev u Hn A. destruct pre as [|ev0 pre]; cbn in *.
  - apply after_vis_inv in A. destruct A as [x [-> A]].
    apply after_nil_inv in A. eapply upto_eutt; [symmetry; exact A|apply HQ].
  - apply after_vis_inv in A. destruct A as [x [-> A]].
    eapply Hk; eauto. lia.
Qed.

Lemma lc_vis {R} n X (e : E X) (k : X -> itree E R) (Q : answered E -> itree E R -> Prop) :
  (forall x, upto Q (Answered e x) (k x)) ->
  (forall x, last_call n (k x) Q) ->
  last_call n (Vis e k) Q.
Proof.
  intros HQ Hk. apply lc_mono with (n := S n); [lia|]. now apply lc_vis_S.
Qed.

Lemma lc_bind {A B} n (t : itree E A) (k : A -> itree E B) Qt (Q : answered E -> itree E B -> Prop) :
  last_call n t Qt ->
  (forall ev u', Qt ev u' -> upto Q ev (ITree.bind u' k)) ->
  (forall r, last_call n (k r) Q) ->
  last_call n (ITree.bind t k) Q.
Proof.
  intros Lt HQ Lk pre ev u Hn Aft.
  apply after_bind_inv in Aft.
  destruct Aft as [[u' [A1 Hu]]|[evs1 [evs2 [r [Heq [Hne [A1 A2]]]]]]].
  - destruct (Lt _ _ _ Hn A1) as [u'' [Hu'' HQt]].
    eapply upto_eutt; [|apply HQ; exact HQt].
    rewrite Hu. now rewrite Hu''.
  - destruct (exists_last Hne) as [pre2 [ev2 ->]].
    rewrite app_assoc in Heq. apply app_inj_tail in Heq. destruct Heq as [-> ->].
    eapply Lk; [|exact A2]. rewrite length_app in Hn. lia.
Qed.

Lemma lc_trigger_bind_S {R} n X (e : E X) (k : X -> itree E R) (Q : answered E -> itree E R -> Prop) :
  (forall x, upto Q (Answered e x) (k x)) ->
  (forall x, last_call n (k x) Q) ->
  last_call (S n) (ITree.bind (ITree.trigger e) k) Q.
Proof.
  intros. eapply lc_eutt; [rewrite bind_trigger; reflexivity|]. now apply lc_vis_S.
Qed.

Lemma lc_trigger_bind {R} n X (e : E X) (k : X -> itree E R) (Q : answered E -> itree E R -> Prop) :
  (forall x, upto Q (Answered e x) (k x)) ->
  (forall x, last_call n (k x) Q) ->
  last_call n (ITree.bind (ITree.trigger e) k) Q.
Proof.
  intros. eapply lc_eutt; [rewrite bind_trigger; reflexivity|]. now apply lc_vis.
Qed.

Lemma lc_trigger n X (e : E X) (Q : answered E -> itree E X -> Prop) :
  (forall x, upto Q (Answered e x) (Ret x)) ->
  last_call n (ITree.trigger e) Q.
Proof.
  intros. apply lc_vis; auto. intros. apply lc_ret.
Qed.

Lemma iter_unfold_eutt {I R} (step : I -> itree E (I + R)) i :
  ITree.iter step i ≈
  ITree.bind (step i) (fun lr =>
    match lr with inl l => ITree.iter step l | inr r => Ret r end).
Proof.
  rewrite unfold_iter at 1. eapply eutt_clo_bind with (UU := eq); [reflexivity|].
  intros ? ? <-. destruct u1; [apply tau_eutt|reflexivity].
Qed.

(** A loop whose every round makes a call. *)
Lemma lc_iter {I R} n (step : I -> itree E (I + R)) Qs
    (Q : answered E -> itree E R -> Prop) :
  (forall i, last_call n (step i) Qs) ->
  (forall i lr, step i ≈ Ret lr -> False) ->
  (forall ev u', Qs ev u' ->
     upto Q ev (ITree.bind u' (fun lr =>
       match lr with inl l => ITree.iter step l | inr r => Ret r end))) ->
  forall i, last_call n (ITree.iter step i) Q.
Proof.
  intros Hs Hprod HQ. induction n as [|n IH]; intros i; [apply lc_zero|].
  intros pre ev u Hn Aft.
  apply (after_eutt_l (iter_unfold_eutt step i)) in Aft.
  apply after_bind_inv in Aft.
  destruct Aft as [[u' [A1 Hu]]|[evs1 [evs2 [r [Heq [Hne [A1 A2]]]]]]].
  - destruct (Hs i _ _ _ Hn A1) as [u'' [Hu'' HQs]].
    eapply upto_eutt; [|apply HQ; exact HQs].
    rewrite Hu. now rewrite Hu''.
  - destruct r as [l|r].
    + destruct (exists_last Hne) as [pre2 [ev2 ->]].
      rewrite app_assoc in Heq. apply app_inj_tail in Heq. destruct Heq as [-> ->].
      destruct evs1 as [|ev1 evs1].
      { exfalso. apply after_nil_inv in A1. eapply Hprod; eauto. }
      eapply IH; [| |exact A2].
      * intros j. eapply lc_mono; [|apply Hs]. lia.
      * rewrite length_app in Hn. cbn in Hn. lia.
    + apply after_ret_inv in A2. destruct A2 as [-> _]. congruence.
Qed.

End AfterFacts.

#[global] Existing Instance after_Proper.

(** ** The recursion of [process_op] *)

Section Properties.
Context `{Rados}.

Lemma interp_osd_trigger X (e : osdE X) :
  interp (M := itree osdE) osd_rec (trigger e) ≈ trigger e.
Proof.
  rewrite interp_trigger. cbn. reflexivity.
Qed.

Lemma interp_osd_call a :
  interp (M := itree osdE) osd_rec (call a) ≈ process_op a.
Proof. apply interp_recursive_call. Qed.

Ltac interp_step :=
  lazymatch goal with
  | |- interp _ (ITree.bind _ _) ≈ _ =>
      rewrite interp_bind; eapply eutt_clo_bind with (UU := eq); [ | intros ? ? <-]
  | |- interp _ (Ret _) ≈ _ => rewrite interp_ret; reflexivity
  | |- interp _ (trigger _) ≈ _ => apply interp_osd_trigger
  | |- interp _ (call _) ≈ _ => apply interp_osd_call
  | |- interp _ (match ?x with _ => _ end) ≈ _ => destruct x
  end.

(** [process_op] is its body with the recursive call bound to [process_op]. *)
Lemma process_op_unfold a : process_op a ≈ process_op_body process_op a.
Proof.
  unfold process_op at 1. rewrite rec_as_interp. fold osd_rec.
  destruct a as [cr pgref].
  unfold process_op_body, safe_then, with_locked_obc, lift_ertr, do_process,
    do_recover_missing, safe_then, then_, enter, now.
  repeat interp_step.
Qed.

(** *** Walking a program *)

Lemma lc_bind_bind {E A B C} n (s : itree E A) (k : A -> itree E B) (h : B -> itree E C) Q :
  last_call n (ITree.bind s (fun r => ITree.bind (k r) h)) Q ->
  last_call n (ITree.bind (ITree.bind s k) h) Q.
Proof. apply lc_eutt. rewrite bind_bind. reflexivity. Qed.

Lemma lc_bind_ret {E A B} n (r : A) (k : A -> itree E B) Q :
  last_call n (k r) Q -> last_call n (ITree.bind (Ret r) k) Q.
Proof. apply lc_eutt. rewrite bind_ret_l. reflexivity. Qed.

Ltac unfold_ops :=
  unfold process_op_body, process_pg_op, start_op, safe_then, with_locked_obc,
    lift_ertr, do_process, do_recover_missing, handle_exception_type,
    then_, enter, now.

Ltac destruct_scrut x :=
  lazymatch x with
  | match ?y with _ => _ end => destruct_scrut y
  | _ => destruct x
  end.

(** One step of a walk over a program, for a goal [last_call n t Q]: [side]
    proves what [Q] asks at a call, [sub] handles a named sub-program. *)
Ltac lc_step side sub :=
  first [ progress (unfold_ops; cbv zeta) |
  lazymatch goal with
  | |- last_call _ (ITree.bind (ITree.bind _ _) _) _ => apply lc_bind_bind
  | |- last_call _ (ITree.bind (Ret _) _) _ => apply lc_bind_ret
  | |- last_call _ (ITree.bind (ITree.trigger _) _) _ =>
      apply lc_trigger_bind; [intros ?; side | intros ?]
  | |- last_call _ (ITree.bind (trigger _) _) _ =>
      apply lc_trigger_bind; [intros ?; side | intros ?]
  | |- last_call _ (ITree.bind (match ?x with _ => _ end) _) _ => destruct_scrut x
  | |- last_call _ (ITree.bind _ _) _ => sub
  | |- last_call _ (Ret _) _ => apply lc_ret
  | |- last_call _ (ITree.trigger _) _ => apply lc_trigger; intros ?; side
  | |- last_call _ (trigger _) _ => apply lc_trigger; intros ?; side
  | |- last_call _ (match ?x with _ => _ end) _ => destruct_scrut x
  | |- last_call _ _ _ => sub
  end ].

(** *** Failures pass through the sequenced part *)

Ltac fails_side :=
  apply upto_intro; intros ? Hfail; cbn in Hfail;
  try discriminate Hfail;
  match type of Hfail with
  | outcome_failure ?x = Some _ => destruct x; cbn in Hfail; [discriminate Hfail|]
  end;
  injection Hfail as ->; cbn;
  repeat (rewrite bind_ret_l; cbn); reflexivity.

Lemma fails_through_bind {A B} ev (u : future (E := osdE) A) (k : outcome A -> future (E := osdE) B) :
  (forall x, k (Failed x) ≈ Ret (Failed x)) ->
  fails_through ev u -> upto fails_through ev (ITree.bind u k).
Proof.
  intros Hk Hu. apply upto_intro. intros x Hx.
  rewrite (Hu x Hx), bind_ret_l. apply Hk.
Qed.

Ltac lc_assoc :=
  repeat lazymatch goal with
  | |- last_call _ (ITree.bind (ITree.bind _ _) _) _ => apply lc_bind_bind
  end.

Lemma process_op_fails_through n a : last_call n (process_op a) fails_through.
Proof.
  revert a. induction n as [|n IH]; intros a; [apply lc_zero|].
  eapply lc_eutt; [apply process_op_unfold|].
  destruct a as [cr pgref]. unfold_ops.
  lc_assoc.
  apply lc_trigger_bind_S; [intros ?; fails_side|intros ?].
  repeat lc_step fails_side
    ltac:(eapply lc_bind;
          [apply IH
          |intros ? ? ?; apply fails_through_bind; [|assumption];
           intros ?; repeat (rewrite bind_ret_l; cbn); reflexivity
          |intros ?]).
Qed.

Lemma body_fails_through n cr pgref : last_call n (body cr pgref) fails_through.
Proof.
  unfold body. unfold_ops.
  repeat lc_step fails_side ltac:(apply process_op_fails_through).
Qed.

Lemma sequenced_fails_through n cr pgref :
  last_call n (start_op (prev_op_id cr) (get_id cr) (body cr pgref)) fails_through.
Proof.
  unfold start_op, then_.
  repeat lc_step fails_side ltac:(apply body_fails_through).
Qed.

(** *** From the sequenced part to [start] *)

Lemma guarded_eutt cr t t' : t ≈ t' -> guarded cr t ≈ guarded cr t'.
Proof. intros Ht. unfold guarded, handle_exception_type, then_. now rewrite Ht. Qed.

Lemma in_round_eutt cr t t' : t ≈ t' -> in_round cr t ≈ in_round cr t'.
Proof. intros Ht. unfold in_round, handle_system_shutdown. now rewrite Ht. Qed.

(** A property of the last call of [t], carried through the handlers that
    [start] chains on it. *)
Lemma guarded_frame n cr (t : future (E := osdE) unit) Qt
    (Q : answered osdE -> future (E := osdE) stop_iteration -> Prop) :
  last_call n t Qt ->
  (forall ev u', Qt ev u' -> upto Q ev (guarded cr u')) ->
  (forall ev u, is_bookkeeping ev = true -> Q ev u) ->
  last_call n (guarded cr t) Q.
Proof.
  intros Ht Hctx Hbk. unfold guarded, on_actingset_changed,
    on_broken_condition_variable. unfold_ops. lc_assoc.
  eapply lc_bind; [exact Ht| |intros r].
  - intros ev u' HQ. eapply upto_eutt; [|apply Hctx; exact HQ].
    unfold guarded, handle_exception_type, then_. rewrite !bind_bind. reflexivity.
  - repeat lc_step ltac:(apply upto_intro; apply Hbk; reflexivity) ltac:(idtac).
Qed.

Lemma iteration_frame n cr Qs
    (Q : answered osdE -> future (E := osdE) stop_iteration -> Prop) :
  (forall pgref,
     last_call n (start_op (prev_op_id cr) (get_id cr) (body cr pgref)) (Qs pgref)) ->
  (forall pgref ev u', Qs pgref ev u' -> upto Q ev (guarded cr u')) ->
  (forall ev u, in_sequenced ev = false -> Q ev u) ->
  (forall ev u, is_bookkeeping ev = true -> Q ev u) ->
  last_call n (iteration cr) Q.
Proof.
  intros HS Hctx Hadm Hbk. unfold iteration, then_, enter.
  repeat lazymatch goal with
  | |- last_call _ (ITree.bind (trigger _) _) _ =>
      apply lc_trigger_bind;
      [intros ?; apply upto_intro; apply Hadm; reflexivity | intros ?]
  | |- last_call _ (match ?x with _ => _ end) _ => destruct x
  | |- last_call _ (Ret _) _ => apply lc_ret
  end.
  eapply guarded_frame; [apply HS|apply Hctx|apply Hbk].
Qed.

Lemma in_round_as_binds cr (u : future (E := osdE) stop_iteration) :
  in_round cr u ≈
  ITree.bind
    (ITree.bind
       (ITree.bind u (fun r => Ret (repeat_next r)))
       (fun lr : unit + outcome unit =>
          match lr with
          | inl l => ITree.iter (fun _ : unit => r <- iteration cr;; Ret (repeat_next r)) l
          | inr r => Ret r
          end))
    (fun r => match r with
              | Failed system_shutdown_exception => Ret (Resolved tt)
              | _ => Ret r
              end).
Proof.
  unfold in_round, handle_system_shutdown, repeat.
  rewrite !bind_bind.
  eapply eutt_clo_bind with (UU := eq); [reflexivity|]. intros r ? <-.
  rewrite bind_ret_l. destruct (repeat_next r) as [[]|]; reflexivity.
Qed.

Lemma iteration_productive cr lr :
  (r <- iteration cr;; Ret (repeat_next r)) ≈ Ret lr -> False.
Proof.
  unfold iteration, then_, enter. rewrite !bind_bind, bind_trigger.
  intros Heq. apply eqit_inv in Heq. exact Heq.
Qed.

(** A property of the last call of the sequenced part, carried to [start]:
    through the handlers, the four waits before it, the loop and the
    shutdown handler. *)
Lemma start_frame cr Qs (Q : answered osdE -> future (E := osdE) unit -> Prop) :
  (forall n pgref,
     last_call n (start_op (prev_op_id cr) (get_id cr) (body cr pgref)) (Qs pgref)) ->
  (forall pgref ev u', Qs pgref ev u' -> upto Q ev (in_round cr (guarded cr u'))) ->
  (forall ev u, in_sequenced ev = false -> Q ev u) ->
  (forall ev u, is_bookkeeping ev = true -> Q ev u) ->
  forall n, last_call n (start cr) Q.
Proof.
  intros HS Hctx Hadm Hbk n.
  assert (Hit : last_call n (iteration cr) (fun ev ui => upto Q ev (in_round cr ui))).
  { eapply iteration_frame with (Qs := Qs); [apply HS| | |].
    - intros pgref ev u' HQ. apply upto_intro. now apply (Hctx pgref).
    - intros ev u Hev. apply upto_intro. now apply Hadm.
    - intros ev u Hev. apply upto_intro. now apply Hbk. }
  unfold start, handle_system_shutdown, repeat.
  eapply lc_bind with (Qt := fun ev u1 => upto Q ev (ITree.bind u1 _)).
  - eapply lc_iter with (Qs := fun ev u2 => upto Q ev (ITree.bind (ITree.bind u2 _) _)).
    + intros []. eapply lc_bind; [exact Hit| |intros r; apply lc_ret].
      intros ev u' HQ. apply upto_intro. cbn beta.
      eapply upto_eutt; [|exact HQ]. symmetry. apply in_round_as_binds.
    + intros [] lr. apply iteration_productive.
    + intros ev u' HQ. apply upto_intro. exact HQ.
  - intros ev u' HQ. exact HQ.
  - intros r. destruct r as [|[]]; apply lc_ret.
Qed.

(** *** The calls a program makes *)

Lemma last_call_all {E R} (t : itree E R) (P : answered E -> Prop) evs u :
  (forall n, last_call n t (fun ev _ => P ev)) ->
  after t evs u -> forall ev, In ev evs -> P ev.
Proof.
  intros L Aft ev Hin. apply in_split in Hin. destruct Hin as [l1 [l2 ->]].
  change (ev :: l2) with ([ev] ++ l2) in Aft. rewrite app_assoc in Aft.
  apply after_app in Aft. destruct Aft as [u' [A1 _]].
  destruct (L (S (length l1)) l1 ev u' (Nat.lt_succ_diag_r _) A1) as [? [_ HP]].
  exact HP.
Qed.

Lemma process_op_calls n a :
  last_call n (process_op a) (fun ev _ => object_op_call ev = true).
Proof.
  revert a. induction n as [|n IH]; intros a; [apply lc_zero|].
  eapply lc_eutt; [apply process_op_unfold|].
  destruct a as [cr pgref]. unfold_ops. lc_assoc.
  apply lc_trigger_bind_S; [intros ?; apply upto_intro; reflexivity|intros ?].
  repeat lc_step ltac:(apply upto_intro; reflexivity)
    ltac:(eapply lc_bind;
          [apply IH | intros ? ? ?; apply upto_intro; assumption | intros ?]).
Qed.

Lemma object_op_not_sequencer ev :
  object_op_call ev = true -> is_sequencer_call ev = false.
Proof.
  unfold object_op_call, is_sequencer_call. destruct (view ev); congruence.
Qed.

Lemma body_no_sequencer_call n cr pgref :
  last_call n (body cr pgref) (fun ev _ => is_sequencer_call ev = false).
Proof.
  unfold body. unfold_ops.
  repeat lc_step ltac:(apply upto_intro; reflexivity)
    ltac:(eapply lc_conseq; [|apply process_op_calls];
          intros ? ? ?; apply upto_intro; now apply object_op_not_sequencer).
Qed.

(** *** What follows a failure in the sequenced part *)

Lemma bookkeeping_no_failure ev : is_bookkeeping ev = true -> failure ev = None.
Proof. unfold is_bookkeeping, failure. destruct (view ev); congruence. Qed.

(** Whatever call of the sequenced part fails, [start] goes on as if the
    sequenced part were that failure. *)
Lemma start_failure cr pre ev u x :
  after (start cr) (pre ++ [ev]) u ->
  in_sequenced ev = true -> failure ev = Some x ->
  u ≈ in_round cr (guarded cr (Ret (Failed x))).
Proof.
  intros Aft Hseq Hfail.
  pose (Q := fun (ev : answered osdE) (u : future (E := osdE) unit) =>
    in_sequenced ev = true -> forall x, failure ev = Some x ->
    u ≈ in_round cr (guarded cr (Ret (Failed x)))).
  assert (L : forall n, last_call n (start cr) Q).
  { apply start_frame with (Qs := fun _ => fails_through).
    - intros. apply sequenced_fails_through.
    - intros _ ev' u' Hu'. apply upto_intro. intros _ y Hy.
      apply in_round_eutt, guarded_eutt. now apply Hu'.
    - intros ev' u' Hev' Hs. congruence.
    - intros ev' u' Hev' _ y Hy. apply bookkeeping_no_failure in Hev'. congruence. }
  destruct (L (S (length pre)) pre ev u (Nat.lt_succ_diag_r _) Aft) as [u' [Hu HQ]].
  rewrite Hu. now apply HQ.
Qed.

Ltac settle :=
  repeat (rewrite bind_ret_l; cbn -[start repeat iteration]).

Lemma round_restart cr :
  in_round cr (guarded cr (Ret (Failed (actingset_changed true))))
  ≈ (trigger (SeqMaybeReset (get_id cr));; start cr).
Proof.
  unfold in_round, guarded, handle_exception_type, then_, handle_system_shutdown.
  settle. rewrite !bind_bind.
  eapply eutt_clo_bind with (UU := eq); [reflexivity|]. intros ? ? <-.
  settle. reflexivity.
Qed.

Lemma round_abort cr :
  in_round cr (guarded cr (Ret (Failed (actingset_changed false))))
  ≈ (trigger SeqAbort;; Ret (Resolved tt)).
Proof.
  unfold in_round, guarded, handle_exception_type, then_, handle_system_shutdown.
  settle. rewrite !bind_bind.
  eapply eutt_clo_bind with (UU := eq); [reflexivity|]. intros ? ? <-.
  settle. reflexivity.
Qed.

Lemma round_broken cr :
  in_round cr (guarded cr (Ret (Failed broken_condition_variable)))
  ≈ Ret (Resolved tt).
Proof.
  unfold in_round, guarded, handle_exception_type, then_, handle_system_shutdown.
  settle. reflexivity.
Qed.

Lemma round_shutdown cr :
  in_round cr (guarded cr (Ret (Failed system_shutdown_exception)))
  ≈ Ret (Resolved tt).
Proof.
  unfold in_round, guarded, handle_exception_type, then_, handle_system_shutdown.
  settle. reflexivity.
Qed.

Lemma round_other cr :
  in_round cr (guarded cr (Ret (Failed other_exception)))
  ≈ Ret (Failed other_exception).
Proof.
  unfold in_round, guarded, handle_exception_type, then_, handle_system_shutdown.
  settle. reflexivity.
Qed.

(** *** After the sequencer let the operation in *)



Lemma after_trigger_bind_inv {E R X} (e : E X) (k : X -> itree E R) ev evs u :
  after (ITree.bind (ITree.trigger e) k) (ev :: evs) u ->
  exists x, ev = Answered e x /\ after (k x) evs u.
Proof.
  intros Aft. apply after_vis_inv.
  eapply after_eutt_l; [|exact Aft]. rewrite bind_trigger. reflexivity.
Qed.

Lemma bind_ret_r_eutt {E A} (t : itree E A) (k : A -> itree E A) :
  (forall a, k a ≈ Ret a) -> ITree.bind t k ≈ t.
Proof.
  intros Hk. rewrite <- (bind_ret_r t) at 2.
  eapply eutt_clo_bind with (UU := eq); [reflexivity|]. intros a ? <-. apply Hk.
Qed.


(** *** The object op path *)

(** What the lift into [load_obc_ertr] and the final [safe_then] of
    [process_op] do to a settled plain future: nothing. *)
Lemma ertr_roundtrip (r : outcome unit) :
  ITree.bind
    (match r with
     | Resolved a => Ret (Resolved (inr a))
     | Failed e => Ret (Failed e)
     end : itree osdE (outcome (load_obc_error + unit)))
    (fun r0 =>
       match r0 with
       | Resolved (inr _) => Ret (Resolved tt)
       | Resolved (inl _) => Ret (Resolved tt)
       | Failed e => Ret (Failed e)
       end) ≈ Ret r.
Proof. destruct r as [[]|e]; rewrite bind_ret_l; reflexivity. Qed.

Ltac completed_side :=
  apply upto_intro; intros ? [? [? Hv]]; cbn in Hv;
  first
    [ discriminate Hv
    | injection Hv as _ _ ->; cbn;
      unfold send_completed_reply; rewrite !bind_bind;
      eapply eutt_clo_bind with (UU := eq); [reflexivity|]; intros ? ? <-;
      rewrite ?bind_bind; apply bind_ret_r_eutt; intros ?;
      apply ertr_roundtrip ].

Lemma process_op_completed n cr pgref :
  last_call n (process_op (cr, pgref))
    (fun ev u => forall ret, already_completed ret ev ->
       u ≈ send_completed_reply cr pgref ret).
Proof.
  revert cr. induction n as [|n IH]; intros cr; [apply lc_zero|].
  eapply lc_eutt; [apply process_op_unfold|].
  unfold_ops. lc_assoc.
  apply lc_trigger_bind_S; [intros ?; completed_side|intros ?].
  repeat lc_step completed_side
    ltac:(eapply lc_bind;
          [apply IH
          |intros ? ? Hu; apply upto_intro; intros ? Hc;
           rewrite (Hu _ Hc); apply bind_ret_r_eutt; intros ?; apply ertr_roundtrip
          |intros ?]).
Qed.

Lemma ertr_roundtrip_bind (t : future (E := osdE) unit) :
  ITree.bind t (fun r =>
    ITree.bind
      (match r with
       | Resolved a => Ret (Resolved (inr a))
       | Failed e => Ret (Failed e)
       end : itree osdE (outcome (load_obc_error + unit)))
      (fun r0 =>
         match r0 with
         | Resolved (inr _) => Ret (Resolved tt)
         | Resolved (inl _) => Ret (Resolved tt)
         | Failed e => Ret (Failed e)
         end)) ≈ t.
Proof. apply bind_ret_r_eutt. intros r. apply ertr_roundtrip. Qed.



(** *** The recovery trigger and the replica gate *)


Lemma do_process_after_deref self cr pgref obc pg u :
  after (do_process (E := osdE) self cr pgref obc) [Answered (Deref pgref) pg] u ->
  is_primary pg = false ->
  is_misdirected cr pg = false ->
  can_serve_replica_read pg (get_hobj (m cr)) = false ->
  u ≈ trigger (ConnSend (conn cr) (eagain_reply cr pg)).
Proof.
  intros Aft Hp Hm Hs. unfold do_process in Aft. cbv zeta in Aft.
  apply after_trigger_bind_inv in Aft. destruct Aft as [x [Hx Aft]].
  apply (f_equal view) in Hx. cbn in Hx. injection Hx as <-.
  apply after_nil_inv in Aft. rewrite <- Aft. rewrite Hp, Hm, Hs. reflexivity.
Qed.

Lemma sequenced_start_op_args n cr pgref :
  last_call n (start_op (prev_op_id cr) (get_id cr) (body cr pgref))
    (fun ev _ => start_op_args cr ev).
Proof.
  unfold start_op, then_.
  apply lc_trigger_bind.
  - intros x. apply upto_intro. intros p i r Hv. cbn in Hv.
    injection Hv as <- <- _. split; reflexivity.
  - intros [a|e]; [|apply lc_ret].
    eapply lc_conseq; [|apply body_no_sequencer_call].
    intros ev u Hev. apply upto_intro. intros p i r Hv.
    unfold is_sequencer_call in Hev. rewrite Hv in Hev. discriminate.
Qed.

Lemma start_start_op_args cr n :
  last_call n (start cr) (fun ev _ => start_op_args cr ev).
Proof.
  apply start_frame with (Qs := fun _ ev _ => start_op_args cr ev).
  - intros. apply sequenced_start_op_args.
  - intros _ ev u' Hev. apply upto_intro. exact Hev.
  - intros ev u Hev p i r Hv. unfold in_sequenced in Hev. rewrite Hv in Hev.
    discriminate.
  - intros ev u Hev p i r Hv. unfold is_bookkeeping in Hev. rewrite Hv in Hev.
    discriminate.
Qed.


Lemma is_misdirected_spec cr pg :
  is_misdirected cr pg =
  if (has_flag (m cr) CEPH_OSD_FLAG_BALANCE_READS
      || has_flag (m cr) CEPH_OSD_FLAG_LOCALIZE_READS)
     && may_read (op_info cr)
     && negb (may_write (op_info cr) || may_cache (op_info cr))
  then is_nonprimary pg
  else true.
Proof.
  unfold is_misdirected, has_flag.
  destruct (negb (Z.land (get_flags (m cr)) CEPH_OSD_FLAG_BALANCE_READS =? 0)
            || negb (Z.land (get_flags (m cr)) CEPH_OSD_FLAG_LOCALIZE_READS =? 0));
    cbn; [|reflexivity].
  destruct (may_read (op_info cr)); cbn; [|reflexivity].
  destruct (may_write (op_info cr) || may_cache (op_info cr)); reflexivity.
Qed.

(** ** From one round to [start] *)

(** A property of the last call of a round, carried through the loop and the
    shutdown handler. *)

Lemma start_of_iteration cr Qi (Q : answered osdE -> future (E := osdE) unit -> Prop) :
  (forall n, last_call n (iteration cr) Qi) ->
  (forall ev ui, Qi ev ui -> upto Q ev (in_round cr ui)) ->
  forall n, last_call n (start cr) Q.
Proof.
  intros Hi Hctx n.
  assert (Hit : last_call n (iteration cr) (fun ev ui => upto Q ev (in_round cr ui))).
  { eapply lc_conseq; [|apply Hi]. intros ev u HQ. apply upto_intro. now apply Hctx. }
  unfold start, handle_system_shutdown, repeat.
  eapply lc_bind with (Qt := fun ev u1 => upto Q ev (ITree.bind u1 _)).
  - eapply lc_iter with (Qs := fun ev u2 => upto Q ev (ITree.bind (ITree.bind u2 _) _)).
    + intros []. eapply lc_bind; [exact Hit| |intros r; apply lc_ret].
      intros ev u' HQ. apply upto_intro. cbn beta.
      eapply upto_eutt; [|exact HQ]. symmetry. apply in_round_as_binds.
    + intros [] lr. apply iteration_productive.
    + intros ev u' HQ. apply upto_intro. exact HQ.
  - intros ev u' HQ. exact HQ.
  - intros r. destruct r as [|[]]; apply lc_ret.
Qed.

(** *** A property of every call *)

Lemma guarded_calls n cr (t : future (E := osdE) unit) (P : answered osdE -> Prop) :
  last_call n t (fun ev _ => P ev) ->
  P (Answered (SeqFinishOp (get_id cr)) tt) ->
  P (Answered (SeqMaybeReset (get_id cr)) tt) ->
  P (Answered SeqAbort tt) ->
  last_call n (guarded cr t) (fun ev _ => P ev).
Proof.
  intros Ht Hf Hr Ha. unfold guarded, on_actingset_changed,
    on_broken_condition_variable. unfold_ops. lc_assoc.
  eapply lc_bind; [exact Ht| |intros r].
  - intros ev u' HQ. apply upto_intro. exact HQ.
  - repeat lc_step
      ltac:(match goal with x : unit |- _ => destruct x end;
            apply upto_intro; assumption)
      ltac:(idtac).
Qed.

Lemma iteration_calls n cr (P : answered osdE -> Prop) :
  (forall pgref,
     last_call n (start_op (prev_op_id cr) (get_id cr) (body cr pgref))
       (fun ev _ => P ev)) ->
  (forall s r, P (Answered (HandleEnter (cp s)) r)) ->
  (forall r, P (Answered (OsdWaitForMap (get_min_epoch (m cr))) r)) ->
  (forall r, P (Answered (OsdWaitForPg (get_spg (m cr))) r)) ->
  P (Answered (SeqFinishOp (get_id cr)) tt) ->
  P (Answered (SeqMaybeReset (get_id cr)) tt) ->
  P (Answered SeqAbort tt) ->
  last_call n (iteration cr) (fun ev _ => P ev).
Proof.
  intros HS He Hm Hp Hf Hr Ha. unfold iteration, then_, enter.
  repeat lazymatch goal with
  | |- last_call _ (ITree.bind (trigger _) _) _ =>
      apply lc_trigger_bind;
      [intros ?; apply upto_intro; first [apply He|apply Hm|apply Hp] | intros ?]
  | |- last_call _ (match ?x with _ => _ end) _ => destruct x
  | |- last_call _ (Ret _) _ => apply lc_ret
  end.
  apply guarded_calls; auto.
Qed.

Lemma start_calls cr (P : answered osdE -> Prop) :
  (forall n pgref,
     last_call n (start_op (prev_op_id cr) (get_id cr) (body cr pgref))
       (fun ev _ => P ev)) ->
  (forall s r, P (Answered (HandleEnter (cp s)) r)) ->
  (forall r, P (Answered (OsdWaitForMap (get_min_epoch (m cr))) r)) ->
  (forall r, P (Answered (OsdWaitForPg (get_spg (m cr))) r)) ->
  P (Answered (SeqFinishOp (get_id cr)) tt) ->
  P (Answered (SeqMaybeReset (get_id cr)) tt) ->
  P (Answered SeqAbort tt) ->
  forall n, last_call n (start cr) (fun ev _ => P ev).
Proof.
  intros HS He Hm Hp Hf Hr Ha.
  apply start_of_iteration with (Qi := fun ev _ => P ev).
  - intros n. apply iteration_calls; auto.
  - intros ev ui HP. apply upto_intro. exact HP.
Qed.

(** *** The arguments of the calls *)

Ltac own_side := apply upto_intro; cbn; auto.

Lemma process_op_own_calls n cr pgref :
  last_call n (process_op (cr, pgref))
    (fun ev _ => own_call cr ev /\ forall pg, call_pg ev = Some pg -> pg = pgref).
Proof.
  revert cr. induction n as [|n IH]; intros cr; [apply lc_zero|].
  eapply lc_eutt; [apply process_op_unfold|].
  unfold_ops. lc_assoc.
  apply lc_trigger_bind_S;
    [intros ?; apply upto_intro; cbn; split; [auto|intros ? [= <-]; reflexivity]|intros ?].
  repeat lc_step
    ltac:(apply upto_intro; cbn; split;
          [auto|intros ? Hpg; first [discriminate Hpg|injection Hpg as <-; reflexivity]])
    ltac:(eapply lc_bind;
          [apply IH | intros ? ? Hev; apply upto_intro; exact Hev | intros ?]).
Qed.

Lemma sequenced_own_calls n cr pgref :
  last_call n (start_op (prev_op_id cr) (get_id cr) (body cr pgref))
    (fun ev _ => own_call cr ev).
Proof.
  unfold start_op, body. unfold_ops.
  repeat lc_step own_side
    ltac:(eapply lc_conseq; [|apply process_op_own_calls];
          intros ? ? [Hev _]; apply upto_intro; exact Hev).
Qed.

Lemma start_own_calls cr n : last_call n (start cr) (fun ev _ => own_call cr ev).
Proof.
  apply start_calls; try (intros; cbn; auto; fail).
  intros. apply sequenced_own_calls.
Qed.

(** *** Failures of the waits before [start_op] *)

Lemma object_op_in_sequenced ev : object_op_call ev = true -> in_sequenced ev = true.
Proof.
  unfold object_op_call, in_sequenced. destruct (view ev) as [[]| | | | | | | | | | | | | | | | |];
    congruence.
Qed.

Lemma sequenced_in_sequenced n cr pgref :
  last_call n (start_op (prev_op_id cr) (get_id cr) (body cr pgref))
    (fun ev _ => in_sequenced ev = true).
Proof.
  unfold start_op, body. unfold_ops.
  repeat lc_step ltac:(apply upto_intro; reflexivity)
    ltac:(eapply lc_conseq; [|apply process_op_calls];
          intros ? ? ?; apply upto_intro; now apply object_op_in_sequenced).
Qed.

Lemma iteration_wait_failure n cr :
  last_call n (iteration cr)
    (fun ev ui => in_sequenced ev = false -> fails_through ev ui).
Proof.
  unfold iteration, then_, enter.
  repeat lazymatch goal with
  | |- last_call _ (ITree.bind (trigger _) _) _ =>
      apply lc_trigger_bind;
      [intros r; apply upto_intro; intros _ y Hy; cbn in Hy;
       destruct r; cbn in Hy; [discriminate Hy|injection Hy as ->; reflexivity]
      | intros ?]
  | |- last_call _ (match ?x with _ => _ end) _ => destruct x
  | |- last_call _ (Ret _) _ => apply lc_ret
  end.
  eapply lc_conseq; [|apply guarded_calls with (P := fun ev => in_sequenced ev = true)];
    try reflexivity.
  - intros ev u Hev. apply upto_intro. intros Hf. congruence.
  - apply sequenced_in_sequenced.
Qed.

Lemma in_round_failed cr x : in_round cr (Ret (Failed x)) ≈ escapes x.
Proof.
  unfold in_round, handle_system_shutdown, escapes. settle.
  destruct x; reflexivity.
Qed.

(** A failure of one of the four waits that precede [start_op] is not seen by
    the exception handlers of the round. *)
Lemma start_wait_failure cr pre ev u x :
  after (start cr) (pre ++ [ev]) u ->
  in_sequenced ev = false -> failure ev = Some x ->
  u ≈ escapes x.
Proof.
  intros Aft Hseq Hfail.
  pose (Q := fun (ev : answered osdE) (u : future (E := osdE) unit) =>
    in_sequenced ev = false -> forall x, failure ev = Some x -> u ≈ escapes x).
  assert (L : forall n, last_call n (start cr) Q).
  { apply start_of_iteration
      with (Qi := fun ev ui => in_sequenced ev = false -> fails_through ev ui).
    - intros n. apply iteration_wait_failure.
    - intros ev' ui Hu. apply upto_intro. intros Hs y Hy.
      rewrite (in_round_eutt cr (Hu Hs y Hy)). apply in_round_failed. }
  destruct (L (S (length pre)) pre ev u (Nat.lt_succ_diag_r _) Aft) as [u' [Hu HQ]].
  rewrite Hu. now apply HQ.
Qed.

(** *** After the execution, after the object lock, after a recovery *)

Ltac executed_side :=
  apply upto_intro; intros ? [? [? [? [? Hv]]]]; cbn in Hv;
  first
    [ discriminate Hv
    | injection Hv as _ _ _ _ ->; cbn;
      rewrite ?bind_bind; apply ertr_roundtrip_bind ].

Lemma process_op_executed n cr pgref :
  last_call n (process_op (cr, pgref))
    (fun ev u => forall reply, was_executed reply ev ->
       u ≈ trigger (ConnSend (conn cr) reply)).
Proof.
  revert cr. induction n as [|n IH]; intros cr; [apply lc_zero|].
  eapply lc_eutt; [apply process_op_unfold|].
  unfold_ops. lc_assoc.
  apply lc_trigger_bind_S; [intros ?; executed_side|intros ?].
  repeat lc_step executed_side
    ltac:(eapply lc_bind;
          [apply IH
          |intros ? ? Hu; apply upto_intro; intros ? Hc;
           rewrite (Hu _ Hc); apply ertr_roundtrip_bind
          |intros ?]).
Qed.

Ltac lock_failed_side :=
  apply upto_intro; intros [? [? [? [? Hv]]]]; cbn in Hv;
  first
    [ discriminate Hv
    | injection Hv as _ _ _ ->; cbn; settle; reflexivity ].

Lemma process_op_lock_failed n cr pgref :
  last_call n (process_op (cr, pgref)) (fun ev u => lock_failed ev -> u ≈ now).
Proof.
  revert cr. induction n as [|n IH]; intros cr; [apply lc_zero|].
  eapply lc_eutt; [apply process_op_unfold|].
  unfold_ops. lc_assoc.
  apply lc_trigger_bind_S; [intros ?; lock_failed_side|intros ?].
  repeat lc_step lock_failed_side
    ltac:(eapply lc_bind;
          [apply IH
          |intros ? ? Hu; apply upto_intro; intros Hc;
           rewrite (Hu Hc); unfold now; settle; reflexivity
          |intros ?]).
Qed.

Lemma ertr_roundtrip_bind2 (t : future (E := osdE) unit) :
  ITree.bind
    (ITree.bind t (fun r =>
      (match r with
       | Resolved a => Ret (Resolved (inr a))
       | Failed e => Ret (Failed e)
       end : itree osdE (outcome (load_obc_error + unit)))))
    (fun r0 =>
       match r0 with
       | Resolved (inr _) => Ret (Resolved tt)
       | Resolved (inl _) => Ret (Resolved tt)
       | Failed e => Ret (Failed e)
       end) ≈ t.
Proof. rewrite bind_bind. apply ertr_roundtrip_bind. Qed.

Ltac lock_taken_side :=
  apply upto_intro; intros ? ? [? [? Hv]]; cbn in Hv;
  first
    [ discriminate Hv
    | injection Hv as _ _ <- ->; cbn; apply ertr_roundtrip_bind2 ].

Lemma process_op_lock_taken n cr pgref :
  last_call n (process_op (cr, pgref))
    (fun ev u => forall oi obc, lock_taken oi obc ev ->
       u ≈ process_locked cr pgref oi obc).
Proof.
  revert cr. induction n as [|n IH]; intros cr; [apply lc_zero|].
  eapply lc_eutt; [apply process_op_unfold|].
  unfold_ops. lc_assoc.
  apply lc_trigger_bind_S; [intros ?; lock_taken_side|intros ?].
  repeat lc_step lock_taken_side
    ltac:(eapply lc_bind;
          [apply IH
          |intros ? ? Hu; apply upto_intro; intros ? ? Hc;
           rewrite (Hu _ _ Hc); apply ertr_roundtrip_bind
          |intros ?]).
Qed.

Ltac recovered_side :=
  apply upto_intro; intros Hr; cbn in Hr;
  first
    [ contradiction
    | match type of Hr with
      | match ?x with _ => _ end => destruct x; [|contradiction]
      end;
      eexists; cbn; rewrite ?bind_bind, bind_trigger; reflexivity ].

Lemma process_op_recovered n cr pgref :
  last_call n (process_op (cr, pgref))
    (fun ev u => recovered ev ->
       exists k, u ≈ Vis (PgAlreadyComplete pgref (get_reqid (m cr))) k).
Proof.
  revert cr. induction n as [|n IH]; intros cr; [apply lc_zero|].
  eapply lc_eutt; [apply process_op_unfold|].
  unfold_ops. lc_assoc.
  apply lc_trigger_bind_S; [intros ?; recovered_side|intros ?].
  repeat lc_step recovered_side
    ltac:(eapply lc_bind;
          [apply IH
          |intros ? ? Hu; apply upto_intro; intros Hc;
           destruct (Hu Hc) as [k Hk]; eexists; rewrite Hk, bind_vis; reflexivity
          |intros ?]).
Qed.

(** *** From the object op path to [start] *)

Lemma not_sequenced_not_object_path ev :
  in_sequenced ev = false -> only_in_object_path ev = false.
Proof.
  unfold in_sequenced, only_in_object_path.
  destruct (view ev) as [[]| | | | | | | | | | | | | | | | |]; congruence.
Qed.

Lemma bookkeeping_not_object_path ev :
  is_bookkeeping ev = true -> only_in_object_path ev = false.
Proof.
  unfold is_bookkeeping, only_in_object_path.
  destruct (view ev) as [[]| | | | | | | | | | | | | | | | |]; congruence.
Qed.

Lemma start_object_path_frame cr Qp
    (Q : answered osdE -> future (E := osdE) unit -> Prop) :
  (forall n pgref, last_call n (process_op (cr, pgref)) (Qp pgref)) ->
  (forall pgref ev u', Qp pgref ev u' -> upto Q ev (in_round cr (guarded cr u'))) ->
  (forall pgref ev u, only_in_object_path ev = false -> Qp pgref ev u) ->
  (forall ev u, only_in_object_path ev = false -> Q ev u) ->
  forall n, last_call n (start cr) Q.
Proof.
  intros HP Hctx Hp Hq.
  apply start_frame with (Qs := Qp).
  - intros n pgref. unfold start_op, body. unfold_ops.
    repeat lc_step ltac:(apply upto_intro; apply Hp; reflexivity) ltac:(apply HP).
  - exact Hctx.
  - intros ev u Hev. apply Hq. now apply not_sequenced_not_object_path.
  - intros ev u Hev. apply Hq. now apply bookkeeping_not_object_path.
Qed.

(** *** What the round does once the sequenced part settles *)

Lemma round_bind {A} cr (t : itree osdE A) (k : A -> future (E := osdE) unit) :
  in_round cr (guarded cr (ITree.bind t k))
  ≈ ITree.bind t (fun a => in_round cr (guarded cr (k a))).
Proof.
  unfold in_round, guarded, handle_exception_type, then_, handle_system_shutdown.
  rewrite !bind_bind.
  eapply eutt_clo_bind with (UU := eq); [reflexivity|]. intros a ? <-.
  rewrite !bind_bind. reflexivity.
Qed.

Lemma round_settled cr (r : outcome unit) :
  in_round cr (guarded cr (Ret r)) ≈ finish_or_fail cr r.
Proof.
  destruct r as [[]|x]; [|reflexivity].
  unfold in_round, guarded, handle_exception_type, then_, handle_system_shutdown,
    finish_or_fail.
  settle. rewrite !bind_bind.
  eapply eutt_clo_bind with (UU := eq); [reflexivity|]. intros ? ? <-.
  settle. reflexivity.
Qed.

Lemma round_call cr (e : osdE (outcome unit)) :
  in_round cr (guarded cr (trigger e)) ≈ (r <- trigger e;; finish_or_fail cr r).
Proof.
  transitivity (in_round cr (guarded cr (ITree.bind (trigger e) (fun r => Ret r))));
    [apply in_round_eutt, guarded_eutt; rewrite bind_ret_r; reflexivity|].
  rewrite round_bind.
  eapply eutt_clo_bind with (UU := eq); [reflexivity|]. intros r ? <-.
  apply round_settled.
Qed.

Lemma round_pg_op cr pgref :
  in_round cr (guarded cr (process_pg_op cr pgref))
  ≈ (r <- trigger (PgDoPgOps pgref (m cr));;
     match r with
     | Resolved reply => r' <- trigger (ConnSend (conn cr) reply);; finish_or_fail cr r'
     | Failed x => on_failure cr x
     end).
Proof.
  unfold process_pg_op, then_. rewrite round_bind.
  eapply eutt_clo_bind with (UU := eq); [reflexivity|]. intros r ? <-.
  destruct r as [reply|x]; [apply round_call|reflexivity].
Qed.

(** *** PG ops and object ops *)

Lemma object_op_not_activation ev pgref :
  object_op_call ev = true -> ~ activated pgref ev.
Proof.
  unfold object_op_call, activated. intros Hev Hv. rewrite Hv in Hev. discriminate.
Qed.

Lemma sequenced_dispatch n cr pgref :
  last_call n (start_op (prev_op_id cr) (get_id cr) (body cr pgref))
    (fun ev u => forall pg', activated pg' ev ->
       pg' = pgref /\
       u ≈ (if is_pg_op cr then process_pg_op cr pgref else process_op (cr, pgref))).
Proof.
  unfold start_op, body. unfold then_ at 1 2 3 4 5. unfold enter.
  repeat lc_step
    ltac:(apply upto_intro; intros ? Hv; unfold activated in Hv; cbn in Hv;
          first [discriminate Hv
                | injection Hv as <- ->; split; reflexivity])
    ltac:(eapply lc_conseq; [|apply process_op_calls];
          intros ? ? Hev; apply upto_intro; intros ? Hv;
          exfalso; exact (object_op_not_activation Hev Hv)).
Qed.

Lemma start_dispatch cr pre pgref u :
  after (start cr) (pre ++ [Answered (PgWaitForActive pgref) (Resolved tt)]) u ->
  u ≈ in_round cr (guarded cr
        (if is_pg_op cr then process_pg_op cr pgref else process_op (cr, pgref))).
Proof.
  intros Aft.
  pose (Q := fun (ev : answered osdE) (u : future (E := osdE) unit) =>
    forall pg', activated pg' ev ->
      u ≈ in_round cr (guarded cr
            (if is_pg_op cr then process_pg_op cr pg' else process_op (cr, pg')))).
  assert (L : forall n, last_call n (start cr) Q).
  { apply start_frame with (Qs := fun pgref ev u => forall pg', activated pg' ev ->
       pg' = pgref /\
       u ≈ (if is_pg_op cr then process_pg_op cr pgref else process_op (cr, pgref))).
    - intros. apply sequenced_dispatch.
    - intros pg ev' u' Hu'. apply upto_intro. intros pg' Hv.
      destruct (Hu' _ Hv) as [-> Hu]. now apply in_round_eutt, guarded_eutt.
    - intros ev' u' Hev' pg' Hv. unfold in_sequenced in Hev'. rewrite Hv in Hev'.
      discriminate.
    - intros ev' u' Hev' pg' Hv. unfold is_bookkeeping in Hev'. rewrite Hv in Hev'.
      discriminate. }
  destruct (L (S (length pre)) pre _ u (Nat.lt_succ_diag_r _) Aft) as [u' [Hu HQ]].
  rewrite Hu. apply HQ. reflexivity.
Qed.

(** *** The sequencer calls that close a round *)

Lemma sequenced_not_bookkeeping n cr pgref :
  last_call n (start_op (prev_op_id cr) (get_id cr) (body cr pgref))
    (fun ev _ => is_bookkeeping ev = false).
Proof.
  unfold start_op, then_.
  apply lc_trigger_bind; [intros x; apply upto_intro; reflexivity|].
  intros [a|e]; [|apply lc_ret].
  eapply lc_conseq; [|apply body_no_sequencer_call].
  intros ev u Hev. apply upto_intro.
  unfold is_sequencer_call in Hev. unfold is_bookkeeping.
  destruct (view ev); congruence.
Qed.

Lemma guarded_round_over n cr (t : future (E := osdE) unit) :
  last_call n t (fun ev _ => is_bookkeeping ev = false) ->
  last_call n (guarded cr t) round_over.
Proof.
  intros Ht. unfold guarded, on_actingset_changed,
    on_broken_condition_variable. unfold_ops. lc_assoc.
  eapply lc_bind; [exact Ht| |intros r].
  - intros ev u' Hev. apply upto_intro. unfold round_over.
    unfold is_bookkeeping in Hev. destruct (view ev); try exact I; discriminate.
  - repeat lc_step
      ltac:(apply upto_intro; unfold round_over; cbn; settle; reflexivity)
      ltac:(idtac).
Qed.

Lemma iteration_round_over n cr : last_call n (iteration cr) round_over.
Proof.
  unfold iteration, then_, enter.
  repeat lazymatch goal with
  | |- last_call _ (ITree.bind (trigger _) _) _ =>
      apply lc_trigger_bind; [intros ?; apply upto_intro; exact I | intros ?]
  | |- last_call _ (match ?x with _ => _ end) _ => destruct x
  | |- last_call _ (Ret _) _ => apply lc_ret
  end.
  apply guarded_round_over, sequenced_not_bookkeeping.
Qed.

Lemma start_round_over cr pre ev u :
  after (start cr) (pre ++ [ev]) u ->
  match view ev with
  | VSeqFinishOp _ | VSeqAbort => u ≈ Ret (Resolved tt)
  | VSeqMaybeReset _ => u ≈ start cr
  | _ => True
  end.
Proof.
  intros Aft.
  pose (Q := fun (ev : answered osdE) (u : future (E := osdE) unit) =>
    match view ev with
    | VSeqFinishOp _ | VSeqAbort => u ≈ Ret (Resolved tt)
    | VSeqMaybeReset _ => u ≈ start cr
    | _ => True
    end).
  assert (L : forall n, last_call n (start cr) Q).
  { apply start_of_iteration with (Qi := round_over).
    - intros n. apply iteration_round_over.
    - intros ev' ui Hu. apply upto_intro. unfold Q. unfold round_over in Hu.
      destruct (view ev'); try exact I;
        rewrite (in_round_eutt cr Hu);
        unfold in_round, start, handle_system_shutdown; settle; reflexivity. }
  destruct (L (S (length pre)) pre ev u (Nat.lt_succ_diag_r _) Aft) as [u' [Hu HQ]].
  unfold Q in HQ. destruct (view ev); try exact I; now rewrite Hu.
Qed.

(** *** The object op path seen from [start] *)

Lemma start_executed cr pre ev u reply :
  after (start cr) (pre ++ [ev]) u -> was_executed reply ev ->
  u ≈ (r <- trigger (ConnSend (conn cr) reply);; finish_or_fail cr r).
Proof.
  intros Aft Hev.
  pose (Q := fun (ev : answered osdE) (u : future (E := osdE) unit) =>
    forall reply, was_executed reply ev ->
      u ≈ (r <- trigger (ConnSend (conn cr) reply);; finish_or_fail cr r)).
  assert (L : forall n, last_call n (start cr) Q).
  { apply start_object_path_frame
      with (Qp := fun _ ev u => forall reply, was_executed reply ev ->
                    u ≈ trigger (ConnSend (conn cr) reply)).
    - intros. apply process_op_executed.
    - intros _ ev' u' Hu'. apply upto_intro. intros rp Hrp.
      rewrite (in_round_eutt cr (guarded_eutt cr (Hu' _ Hrp))). apply round_call.
    - intros _ ev' u' Hev' rp [? [? [? [? Hv]]]].
      unfold only_in_object_path in Hev'. rewrite Hv in Hev'. discriminate.
    - intros ev' u' Hev' rp [? [? [? [? Hv]]]].
      unfold only_in_object_path in Hev'. rewrite Hv in Hev'. discriminate. }
  destruct (L (S (length pre)) pre ev u (Nat.lt_succ_diag_r _) Aft) as [u' [Hu HQ]].
  rewrite Hu. now apply HQ.
Qed.

Lemma start_lock_failed cr pre ev u :
  after (start cr) (pre ++ [ev]) u -> lock_failed ev ->
  u ≈ (trigger (SeqFinishOp (get_id cr));; Ret (Resolved tt)).
Proof.
  intros Aft Hev.
  pose (Q := fun (ev : answered osdE) (u : future (E := osdE) unit) =>
    lock_failed ev -> u ≈ (trigger (SeqFinishOp (get_id cr));; Ret (Resolved tt))).
  assert (L : forall n, last_call n (start cr) Q).
  { apply start_object_path_frame with (Qp := fun _ ev u => lock_failed ev -> u ≈ now).
    - intros. apply process_op_lock_failed.
    - intros _ ev' u' Hu'. apply upto_intro. intros Hl.
      rewrite (in_round_eutt cr (guarded_eutt cr (Hu' Hl))).
      apply (round_settled cr (Resolved tt)).
    - intros _ ev' u' Hev' [? [? [? [? Hv]]]].
      unfold only_in_object_path in Hev'. rewrite Hv in Hev'. discriminate.
    - intros ev' u' Hev' [? [? [? [? Hv]]]].
      unfold only_in_object_path in Hev'. rewrite Hv in Hev'. discriminate. }
  destruct (L (S (length pre)) pre ev u (Nat.lt_succ_diag_r _) Aft) as [u' [Hu HQ]].
  rewrite Hu. now apply HQ.
Qed.

Lemma start_completed cr pre ev u ret :
  after (start cr) (pre ++ [ev]) u -> already_completed ret ev ->
  exists pgref,
    u ≈ (pg <- trigger (Deref pgref);;
         r <- trigger (ConnSend (conn cr) (completed_reply cr pg ret));;
         finish_or_fail cr r).
Proof.
  intros Aft Hev.
  pose (Q := fun (ev : answered osdE) (u : future (E := osdE) unit) =>
    forall ret, already_completed ret ev ->
      exists pgref,
        u ≈ (pg <- trigger (Deref pgref);;
             r <- trigger (ConnSend (conn cr) (completed_reply cr pg ret));;
             finish_or_fail cr r)).
  assert (L : forall n, last_call n (start cr) Q).
  { apply start_object_path_frame
      with (Qp := fun pgref ev u => forall ret, already_completed ret ev ->
                    u ≈ send_completed_reply cr pgref ret).
    - intros. apply process_op_completed.
    - intros pgref ev' u' Hu'. apply upto_intro. intros rt Hrt. exists pgref.
      rewrite (in_round_eutt cr (guarded_eutt cr (Hu' _ Hrt))).
      unfold send_completed_reply. rewrite round_bind.
      eapply eutt_clo_bind with (UU := eq); [reflexivity|]. intros pg ? <-.
      apply round_call.
    - intros ? ev' u' Hev' rt [? [? Hv]].
      unfold only_in_object_path in Hev'. rewrite Hv in Hev'. discriminate.
    - intros ev' u' Hev' rt [? [? Hv]].
      unfold only_in_object_path in Hev'. rewrite Hv in Hev'. discriminate. }
  destruct (L (S (length pre)) pre ev u (Nat.lt_succ_diag_r _) Aft) as [u' [Hu HQ]].
  destruct (HQ _ Hev) as [pgref Hp]. exists pgref. now rewrite Hu.
Qed.

Lemma is_pg_op_true_iff cr :
  is_pg_op cr = true <->
  exists op, In op (ops (m cr)) /\ ceph_osd_op_type_pg (op_code op) = true.
Proof. unfold is_pg_op. apply existsb_exists. Qed.

Lemma is_pg_op_false cr :
  (forall op, In op (ops (m cr)) -> ceph_osd_op_type_pg (op_code op) = false) ->
  is_pg_op cr = false.
Proof.
  intros Hall. destruct (is_pg_op cr) eqn:Hp; [|reflexivity].
  apply is_pg_op_true_iff in Hp. destruct Hp as [op [Hin Ht]].
  rewrite (Hall _ Hin) in Ht. discriminate.
Qed.

Lemma do_process_deref self cr pgref obc pg u :
  after (do_process (E := osdE) self cr pgref obc) [Answered (Deref pgref) pg] u ->
  u ≈ (if negb (is_primary pg) then
         if is_misdirected cr pg then now
         else if negb (can_serve_replica_read pg (get_hobj (m cr))) then
           trigger (ConnSend (conn cr) (eagain_reply cr pg))
         else
           safe_then (trigger (PgDoOsdOps pgref (m cr) obc (op_info cr)))
             (fun reply => trigger (ConnSend (conn cr) reply))
             (fun _ => self (cr, pgref))
       else
         safe_then (trigger (PgDoOsdOps pgref (m cr) obc (op_info cr)))
           (fun reply => trigger (ConnSend (conn cr) reply))
           (fun _ => self (cr, pgref))).
Proof.
  intros Aft. unfold do_process in Aft. cbv zeta in Aft.
  apply after_trigger_bind_inv in Aft. destruct Aft as [x [Hx Aft]].
  apply (f_equal view) in Hx. cbn in Hx. injection Hx as <-.
  apply after_nil_inv in Aft. rewrite <- Aft. reflexivity.
Qed.

(** On a node that is not primary, [is_misdirected] answers false only when
    the node holds no valid replica role for the PG. *)
Lemma not_misdirected_has_no_role cr pg :
  is_primary pg = false -> is_misdirected cr pg = false -> get_role pg = role_none.
Proof.
  intros Hp Hm. rewrite is_misdirected_spec in Hm.
  destruct ((has_flag (m cr) CEPH_OSD_FLAG_BALANCE_READS
             || has_flag (m cr) CEPH_OSD_FLAG_LOCALIZE_READS)
            && may_read (op_info cr)
            && negb (may_write (op_info cr) || may_cache (op_info cr)));
    [|discriminate].
  unfold is_primary in Hp. unfold is_nonprimary in Hm.
  destruct (get_role pg); congruence.
Qed.

(** The "try again" branch of [do_process], taken when [is_misdirected]
    answers false and the PG cannot serve the object as a replica read: what
    remains is to send one reply; its result is -EAGAIN, its flags argument is
    the request's flags masked with ACK | ONDISK, and its last argument is
    set exactly when the request lacks the RETURNVEC flag.  By
    [not_misdirected_has_no_role] the branch is taken on a node without a
    valid replica role only. *)
Lemma eagain_branch_of_do_process
    (self : ClientRequest * PGRef -> future (E := osdE) unit) cr pgref obc pg u :
  after (do_process self cr pgref obc) [Answered (Deref pgref) pg] u ->
  is_primary pg = false ->
  is_misdirected cr pg = false ->
  can_serve_replica_read pg (get_hobj (m cr)) = false ->
  u ≈ trigger (ConnSend (conn cr) (eagain_reply cr pg)) /\
  reply_result (eagain_reply cr pg) = - EAGAIN /\
  reply_acktype (eagain_reply cr pg)
    = Z.land (get_flags (m cr)) (Z.lor CEPH_OSD_FLAG_ACK CEPH_OSD_FLAG_ONDISK) /\
  attaches_out_data (eagain_reply cr pg) = has_flag (m cr) CEPH_OSD_FLAG_RETURNVEC.
Proof.
  intros Aft Hp Hm Hs. split; [eapply do_process_after_deref; eauto|].
  repeat split. unfold attaches_out_data. cbn. apply negb_involutive.
Qed.

(** ** The claims *)

(** C1: when a call of the sequenced part fails with "acting set changed" while
    this node is still primary, what remains of the operation is
    [maybe_reset] with its own id followed by the whole of [start] on the same
    request; and every [start_op] call the operation ever makes, in the first
    or in a later round, passes the [prev_op_id] read from the sequencer by the
    constructor and the operation's own id. *)
Theorem restart_keeps_ordering_slot (priv : OSDConnectionPriv) (c : ConnectionRef)
    (msg : MOSDOp) (id : Z) :
  let cr := ClientRequest_new priv c msg id in
  prev_op_id cr = get_last_issued (op_sequencer priv (get_spg msg)) /\
  (forall pre ev u,
     after (start cr) (pre ++ [ev]) u ->
     in_sequenced ev = true ->
     failure ev = Some (actingset_changed true) ->
     u ≈ (trigger (SeqMaybeReset (get_id cr));; start cr)) /\
  (forall evs u ev p i r,
     after (start cr) evs u -> In ev evs ->
     view ev = VSeqStartOp p i r ->
     p = prev_op_id cr /\ i = get_id cr).
Proof.
  intros cr. split; [reflexivity|]. split.
  - intros pre ev u Aft Hseq Hfail.
    rewrite (start_failure Aft Hseq Hfail). apply round_restart.
  - intros evs u ev p i r Aft Hin Hv.
    eapply (last_call_all (t := start cr) (P := start_op_args cr)); eauto.
    intros n. apply start_start_op_args.
Qed.


(** C4: when the shard reports the request id as already completed with
    result [ret], what remains of [process_op] is to read the shard's epoch and
    send one reply, which carries [ret] and the flags ACK | ONDISK; the object
    lock is not taken and nothing is executed. *)
Theorem completed_request_is_answered_not_executed cr pgref pre pg' q ret u :
  after (process_op (cr, pgref))
    (pre ++ [Answered (PgAlreadyComplete pg' q) (Resolved (true, ret))]) u ->
  u ≈ (pg <- trigger (Deref pgref);;
       trigger (ConnSend (conn cr) (completed_reply cr pg ret))) /\
  forall pg,
    reply_result (completed_reply cr pg ret) = ret /\
    reply_acktype (completed_reply cr pg ret)
      = Z.lor CEPH_OSD_FLAG_ACK CEPH_OSD_FLAG_ONDISK.
Proof.
  intros Aft. split; [|intros pg; split; reflexivity].
  destruct (process_op_completed (n := S (length pre)) (cr := cr) (pgref := pgref)
              (Nat.lt_succ_diag_r _) Aft) as [u' [Hu HQ]].
  rewrite Hu. apply HQ. exists pg', q. reflexivity.
Qed.

(** C5: when a call of the sequenced part fails with "acting set changed" and
    this node is no longer primary, what remains of the operation is
    [abort()] on the sequencer and a normal end of [start]: no reply is sent
    and the loop does not run again. *)
Theorem no_longer_primary_aborts_silently cr pre ev u :
  after (start cr) (pre ++ [ev]) u ->
  in_sequenced ev = true ->
  failure ev = Some (actingset_changed false) ->
  u ≈ (trigger SeqAbort;; Ret (Resolved tt)).
Proof.
  intros Aft Hseq Hfail.
  rewrite (start_failure Aft Hseq Hfail). apply round_abort.
Qed.



(** C9 (as amended): the reply for an already-completed request id carries
    exactly ACK | ONDISK and is always built with the ignore-out-data argument
    false, so per-op results are never stripped from it, whatever the
    request's RETURNVEC flag; the "try again" reply strips them exactly when
    the request lacks that flag. *)
Theorem completed_reply_keeps_out_data cr pg ret :
  reply_acktype (completed_reply cr pg ret)
    = Z.lor CEPH_OSD_FLAG_ACK CEPH_OSD_FLAG_ONDISK /\
  reply_ignore_out_data (completed_reply cr pg ret) = false /\
  attaches_out_data (completed_reply cr pg ret) = true /\
  attaches_out_data (eagain_reply cr pg) = has_flag (m cr) CEPH_OSD_FLAG_RETURNVEC.
Proof.
  repeat split. unfold attaches_out_data. cbn. apply negb_involutive.
Qed.

(** C10: when the wait in [start_op] fails with a broken condition variable,
    nothing remains of the operation: [start] ends normally without a reply,
    without [finish_op] and without an error. *)
Theorem broken_sequencer_wait_ends_silently cr pre p i u :
  after (start cr)
    (pre ++ [Answered (SeqStartOp p i) (Failed broken_condition_variable)]) u ->
  u ≈ Ret (Resolved tt).
Proof.
  intros Aft.
  rewrite (start_failure (x := broken_condition_variable) Aft); try reflexivity.
  apply round_broken.
Qed.

(** ** Further properties *)

(** X1: when any call of [start] fails with the system-shutdown exception, be
    it one of the four waits before [start_op] or a call of the sequenced
    part, nothing remains of the operation: [start] ends normally, with no
    reply, no sequencer call and no error. *)
Theorem shutdown_ends_start_quietly cr pre ev u :
  after (start cr) (pre ++ [ev]) u ->
  failure ev = Some system_shutdown_exception ->
  u ≈ Ret (Resolved tt).
Proof.
  intros Aft Hfail. destruct (in_sequenced ev) eqn:Hseq.
  - rewrite (start_failure Aft Hseq Hfail). apply round_shutdown.
  - exact (start_wait_failure Aft Hseq Hfail).
Qed.

(** X2: the handlers for "acting set changed" and for a broken condition
    variable are chained on [start_op] only.  When one of the four waits that
    precede it fails with an exception other than system shutdown, [start]
    fails with that exception at once: no restart, no [maybe_reset], no
    [abort], and nothing is sent. *)
Theorem failed_admission_wait_is_not_handled cr pre ev u x :
  after (start cr) (pre ++ [ev]) u ->
  in_sequenced ev = false ->
  failure ev = Some x ->
  x <> system_shutdown_exception ->
  u ≈ Ret (Failed x).
Proof.
  intros Aft Hseq Hfail Hx. rewrite (start_wait_failure Aft Hseq Hfail).
  destruct x; try reflexivity. congruence.
Qed.

(** X3: an exception of the sequenced part that is neither "acting set
    changed", a broken condition variable nor system shutdown makes [start]
    fail with it; [finish_op] is not called and the loop does not run
    again. *)
Theorem unhandled_exception_fails_start cr pre ev u :
  after (start cr) (pre ++ [ev]) u ->
  in_sequenced ev = true ->
  failure ev = Some other_exception ->
  u ≈ Ret (Failed other_exception).
Proof.
  intros Aft Hseq Hfail. rewrite (start_failure Aft Hseq Hfail). apply round_other.
Qed.

(** X4: [finish_op] and [abort] are always the last call of the operation,
    which then ends normally; after [maybe_reset] what remains is the whole of
    [start] again. *)
Theorem sequencer_release_ends_the_round cr pre ev u :
  after (start cr) (pre ++ [ev]) u ->
  is_bookkeeping ev = true ->
  u ≈ (match view ev with
       | VSeqMaybeReset _ => start cr
       | _ => Ret (Resolved tt)
       end).
Proof.
  intros Aft Hbk. pose proof (start_round_over Aft) as Hr.
  unfold is_bookkeeping in Hbk. destruct (view ev); try discriminate; exact Hr.
Qed.

(** X5: every call [start] makes, in any round and at any depth of the retry
    recursion, is made for the operation's own request: replies and the map
    advisory go to its connection, the PG is handed its message, request id
    and object, the waits use its epoch bound and shard id, and the sequencer
    is given its own ids. *)
Theorem start_acts_for_its_own_request cr evs u :
  after (start cr) evs u -> Forall (own_call cr) evs.
Proof.
  intros Aft. apply Forall_forall. intros ev Hin.
  eapply (last_call_all (t := start cr) (P := own_call cr)); eauto.
  intros n. apply start_own_calls.
Qed.

(** X6: a request with at least one PG sub-op is handled as a PG op as a
    whole.  Once the PG is active, the operation calls [do_pg_ops] on the
    message, sends the reply it returns and calls [finish_op]; a failure of
    [do_pg_ops] sends nothing.  No recovery wait, idempotence query, object
    lock or [do_osd_ops] call is part of this path. *)
Theorem pg_op_is_answered_by_do_pg_ops cr pre pgref op u :
  after (start cr) (pre ++ [Answered (PgWaitForActive pgref) (Resolved tt)]) u ->
  In op (ops (m cr)) ->
  ceph_osd_op_type_pg (op_code op) = true ->
  u ≈ (r <- trigger (PgDoPgOps pgref (m cr));;
       match r with
       | Resolved reply =>
           r' <- trigger (ConnSend (conn cr) reply);;
           match r' with
           | Resolved _ => trigger (SeqFinishOp (get_id cr));; Ret (Resolved tt)
           | Failed x => on_failure cr x
           end
       | Failed x => on_failure cr x
       end).
Proof.
  intros Aft Hin Hop. rewrite (start_dispatch Aft).
  assert (Hp : is_pg_op cr = true) by (apply is_pg_op_true_iff; eauto).
  rewrite Hp. apply round_pg_op.
Qed.

(** X7: a request none of whose sub-ops is a PG op, in particular one with no
    sub-op at all, is handed to [process_op] on the PG that reported
    active. *)
Theorem object_op_goes_to_process_op cr pre pgref u :
  after (start cr) (pre ++ [Answered (PgWaitForActive pgref) (Resolved tt)]) u ->
  (forall op, In op (ops (m cr)) -> ceph_osd_op_type_pg (op_code op) = false) ->
  u ≈ in_round cr (guarded cr (process_op (cr, pgref))).
Proof.
  intros Aft Hall. rewrite (start_dispatch Aft), (is_pg_op_false Hall). reflexivity.
Qed.

(** X8: seen from [start], a request whose id the PG reports as completed is
    answered with the completed reply and then released: when the send
    resolves [finish_op] is called with the operation's id and [start] ends;
    when it fails the handlers of the round take over. *)
Theorem duplicate_request_is_answered_then_finished cr pre pg' q ret u :
  after (start cr)
    (pre ++ [Answered (PgAlreadyComplete pg' q) (Resolved (true, ret))]) u ->
  exists pgref,
    u ≈ (pg <- trigger (Deref pgref);;
         r <- trigger (ConnSend (conn cr) (completed_reply cr pg ret));;
         match r with
         | Resolved _ => trigger (SeqFinishOp (get_id cr));; Ret (Resolved tt)
         | Failed x => on_failure cr x
         end).
Proof.
  intros Aft. apply (start_completed Aft). exists pg', q. reflexivity.
Qed.

(** X9: when the object context cannot be loaded (an error of
    [load_obc_ertr], as opposed to an exception), the operation sends no reply
    and executes nothing, and still counts as done: what remains is
    [finish_op] with its id and a normal end of [start]. *)
Theorem object_load_error_is_swallowed cr pre pg' req oi c u :
  after (start cr)
    (pre ++ [Answered (PgWithLockedObc pg' req oi) (Resolved (inl c))]) u ->
  u ≈ (trigger (SeqFinishOp (get_id cr));; Ret (Resolved tt)).
Proof.
  intros Aft. apply (start_lock_failed Aft). exists pg', req, oi, c. reflexivity.
Qed.

(** X10: when [do_osd_ops] resolves with a reply, at any depth of the retry
    recursion, what remains of [start] is to send that very reply on the
    request's connection, then [finish_op] with the operation's id; a failed
    send goes to the handlers of the round. *)
Theorem reply_of_execution_is_sent_then_finished cr pre pg' req obc oi reply u :
  after (start cr)
    (pre ++ [Answered (PgDoOsdOps pg' req obc oi) (Resolved (inr reply))]) u ->
  u ≈ (r <- trigger (ConnSend (conn cr) reply);;
       match r with
       | Resolved _ => trigger (SeqFinishOp (get_id cr));; Ret (Resolved tt)
       | Failed x => on_failure cr x
       end).
Proof.
  intros Aft. apply (start_executed Aft). exists pg', req, obc, oi. reflexivity.
Qed.

(** X11: once the object lock is taken, what remains of [process_op] is to
    enter the process stage and run [do_process] on the locked context, with
    the classification the lock was taken with; if entering the stage fails
    nothing is executed. *)
Theorem locked_object_is_the_one_processed cr pgref pre pg' req oi obc u :
  after (process_op (cr, pgref))
    (pre ++ [Answered (PgWithLockedObc pg' req oi) (Resolved (inr obc))]) u ->
  u ≈ then_ (enter (pp pgref pp_process))
        (fun _ => do_process process_op (set_op_info cr oi) pgref obc).
Proof.
  intros Aft.
  destruct (process_op_lock_taken (n := S (length pre)) (cr := cr) (pgref := pgref)
              (Nat.lt_succ_diag_r _) Aft) as [u' [Hu HQ]].
  rewrite Hu. apply HQ. exists pg', req. reflexivity.
Qed.

(** X12: when the recovery wait of [do_recover_missing] resolves, whether the
    recovery was already registered or started by this request, the next
    call of [process_op] is the idempotence query for the request's id on the
    same PG. *)
Theorem recovery_done_resumes_with_idempotence_check cr pgref pre ev u :
  after (process_op (cr, pgref)) (pre ++ [ev]) u ->
  recovered ev ->
  exists k, u ≈ Vis (PgAlreadyComplete pgref (get_reqid (m cr))) k.
Proof.
  intros Aft Hr.
  destruct (process_op_recovered (n := S (length pre)) (cr := cr) (pgref := pgref)
              (Nat.lt_succ_diag_r _) Aft) as [u' [Hu HQ]].
  destruct (HQ Hr) as [k Hk]. exists k. now rewrite Hu.
Qed.

(** X13: an exception raised by any call of the object op path settles
    [process_op] with that exception: the final [safe_then], which swallows
    the errors of [load_obc_ertr], lets exceptions through, and no reply is
    sent after the failed call. *)
Theorem failed_call_fails_process_op a pre ev u x :
  after (process_op a) (pre ++ [ev]) u ->
  failure ev = Some x ->
  u ≈ Ret (Failed x).
Proof.
  intros Aft Hfail.
  destruct (process_op_fails_through (n := S (length pre)) (a := a)
              (Nat.lt_succ_diag_r _) Aft) as [u' [Hu HQ]].
  rewrite Hu. now apply HQ.
Qed.

(** X14: every call of [process_op] that addresses a PG, in the first pass or
    in a retry, addresses the PG [process_op] was given. *)
Theorem process_op_addresses_one_pg cr pgref evs u :
  after (process_op (cr, pgref)) evs u ->
  Forall (fun ev => forall pg, call_pg ev = Some pg -> pg = pgref) evs.
Proof.
  intros Aft. apply Forall_forall. intros ev Hin.
  eapply (last_call_all (t := process_op (cr, pgref))
            (P := fun ev => own_call cr ev /\
                            forall pg, call_pg ev = Some pg -> pg = pgref)); eauto.
  intros n. apply process_op_own_calls.
Qed.

(** X15: on a node that is not primary, an operation that carries neither
    BALANCE_READS nor LOCALIZE_READS, or that reads nothing, or that may write
    or may cache, is misdirected, and [do_process] drops it: nothing is
    executed and no reply is sent. *)
Theorem misdirected_op_is_dropped_on_non_primary
    (self : ClientRequest * PGRef -> future (E := osdE) unit) cr pgref obc pg u :
  after (do_process self cr pgref obc) [Answered (Deref pgref) pg] u ->
  is_primary pg = false ->
  (has_flag (m cr) CEPH_OSD_FLAG_BALANCE_READS = false /\
   has_flag (m cr) CEPH_OSD_FLAG_LOCALIZE_READS = false) \/
  may_read (op_info cr) = false \/
  may_write (op_info cr) = true \/
  may_cache (op_info cr) = true ->
  is_misdirected cr pg = true /\ u ≈ now.
Proof.
  intros Aft Hp Hc.
  assert (Hm : is_misdirected cr pg = true).
  { rewrite is_misdirected_spec.
    destruct Hc as [ [ -> -> ] | [ -> | [ -> | -> ] ] ]; cbn; try reflexivity;
      rewrite ?andb_false_r, ?orb_true_r; cbn; rewrite ?andb_false_r; reflexivity. }
  split; [exact Hm|].
  rewrite (do_process_deref Aft), Hp, Hm. reflexivity.
Qed.

(** X16: on the primary [do_process] executes whatever the request's flags and
    classification: it calls [do_osd_ops] with the message, the locked context
    and the classification, sends the reply when it resolves, re-enters
    [process_op] on "try again" and fails with the exception otherwise. *)
Theorem primary_executes_without_replica_checks
    (self : ClientRequest * PGRef -> future (E := osdE) unit) cr pgref obc pg u :
  after (do_process self cr pgref obc) [Answered (Deref pgref) pg] u ->
  is_primary pg = true ->
  u ≈ (r <- trigger (PgDoOsdOps pgref (m cr) obc (op_info cr));;
       match r with
       | Resolved (inr reply) => trigger (ConnSend (conn cr) reply)
       | Resolved (inl _) => self (cr, pgref)
       | Failed x => Ret (Failed x)
       end).
Proof.
  intros Aft Hp. rewrite (do_process_deref Aft), Hp. cbn.
  unfold safe_then, then_.
  eapply eutt_clo_bind with (UU := eq); [reflexivity|]. intros r ? <-.
  destruct r as [[|]|]; reflexivity.
Qed.

End Properties.

(** ** Runs on concrete requests *)

(** Runs a program along a given list of answered calls. *)
Ltac run_trace :=
  cbn [round0 admission0 object_path0 executed app];
  repeat first
    [ eapply after_obs_vis; [cbn; reflexivity|]
    | eapply after_obs_tau; [cbn; reflexivity|] ];
  apply after_refl.

(** Runs a program along a list of answered calls built from the runs above. *)
Ltac run_calls :=
  cbn [round0 admission0 object_path0 to_get_pg0 sequenced0 activated0 to_lock0
       executed app];
  repeat first
    [ eapply after_obs_vis; [cbn; reflexivity|]
    | eapply after_obs_tau; [cbn; reflexivity|] ];
  apply after_refl.

Section Runs.
#[local] Existing Instance rados_h.

Lemma restart_keeps_ordering_slot_witness :
  (exists u,
     after (start cr0) (round0 ++ [executed (Failed (actingset_changed true))]) u /\
     u ≈ (trigger (SeqMaybeReset 6);; start cr0)) /\
  (5 = prev_op_id cr0 /\ 6 = get_id cr0).
Proof.
  split.
  - eexists. split; [run_trace|].
    eapply (proj1 (proj2 (restart_keeps_ordering_slot priv0 1 msg0 6)))
      with (pre := round0) (ev := executed (Failed (actingset_changed true)));
      [run_trace|reflexivity|reflexivity].
  - eapply (proj2 (proj2 (restart_keeps_ordering_slot priv0 1 msg0 6)))
      with (evs := round0) (ev := Answered (SeqStartOp 5 6) (Resolved tt))
           (r := Resolved tt);
      [run_trace|cbn; tauto|reflexivity].
Defined.

(** C2: a balanced read, classified as a pure read, that reaches a valid
    non-primary replica able to serve replica reads is judged misdirected, and
    [do_process] drops it without a reply or an execution. *)
Theorem balanced_read_on_replica_is_dropped :
  has_flag (m cr_read) CEPH_OSD_FLAG_BALANCE_READS = true /\
  op_info cr_read = read_only /\
  is_nonprimary pg_replica = true /\
  can_serve_replica_read pg_replica (get_hobj (m cr_read)) = true /\
  is_misdirected cr_read pg_replica = true /\
  after (do_process process_op cr_read 1 9) [Answered (Deref 1) pg_replica] now.
Proof.
  repeat split.
  eapply after_obs_vis; [cbn; reflexivity|]. apply after_nil.
  rewrite itree_eta. cbn. reflexivity.
Qed.


Lemma completed_request_is_answered_not_executed_witness :
  exists u,
    after (process_op (cr0, 1))
      ([Answered (HandleEnter (pp 1 pp_recover_missing)) (Resolved tt);
        Answered (Deref 1) pg_primary]
       ++ [Answered (PgAlreadyComplete 1 42) (Resolved (true, 0))]) u /\
    u ≈ (pg <- trigger (Deref 1);;
         trigger (ConnSend 1 (completed_reply cr0 pg 0))).
Proof.
  eexists. split; [run_trace|].
  refine (proj1 (completed_request_is_answered_not_executed (cr := cr0)
                   (pre := [Answered (HandleEnter (pp 1 pp_recover_missing)) (Resolved tt);
                            Answered (Deref 1) pg_primary])
                   (pg' := 1) (q := 42) _)).
  run_trace.
Defined.

Lemma no_longer_primary_aborts_silently_witness :
  exists u,
    after (start cr0) (round0 ++ [executed (Failed (actingset_changed false))]) u /\
    u ≈ (trigger SeqAbort;; Ret (Resolved tt)).
Proof.
  eexists. split; [run_trace|].
  eapply (no_longer_primary_aborts_silently (cr := cr0) (pre := round0)
            (ev := executed (Failed (actingset_changed false))));
    [run_trace|reflexivity|reflexivity].
Defined.


(** C7: a balanced read, classified as a pure read, that reaches a valid
    non-primary replica which cannot serve the object as a replica read gets
    no "try again" reply.  [is_misdirected] answers true on every valid
    replica, so [do_process] drops the request: nothing remains to run, which
    is not the sending of the EAGAIN reply.  Whenever [do_process] does take
    the EAGAIN branch, the node holds no valid replica role. *)
Theorem unservable_read_on_replica_gets_no_reply :
  has_flag (m cr_read) CEPH_OSD_FLAG_BALANCE_READS = true /\
  op_info cr_read = read_only /\
  is_primary pg_unservable = false /\
  is_nonprimary pg_unservable = true /\
  can_serve_replica_read pg_unservable (get_hobj (m cr_read)) = false /\
  is_misdirected cr_read pg_unservable = true /\
  after (do_process process_op cr_read 1 9) [Answered (Deref 1) pg_unservable] now /\
  (forall u,
     after (do_process process_op cr_read 1 9) [Answered (Deref 1) pg_unservable] u ->
     u ≈ now /\
     ~ (u ≈ trigger (ConnSend (conn cr_read) (eagain_reply cr_read pg_unservable)))) /\
  (forall cr pg,
     is_primary pg = false -> is_misdirected cr pg = false ->
     get_role pg = role_none).
Proof.
  repeat match goal with |- _ /\ _ => split end; try reflexivity.
  - eapply after_obs_vis; [cbn; reflexivity|]. apply after_nil.
    rewrite itree_eta. cbn. reflexivity.
  - intros u Aft. apply do_process_deref in Aft. cbn in Aft. split; [exact Aft|].
    intros Hsend. rewrite Aft in Hsend. apply eqit_inv in Hsend. exact Hsend.
  - intros cr pg. apply not_misdirected_has_no_role.
Qed.

Lemma eagain_branch_of_do_process_run :
  exists u,
    after (do_process process_op cr_read 1 9) [Answered (Deref 1) pg_no_role] u /\
    u ≈ trigger (ConnSend 1 (eagain_reply cr_read pg_no_role)) /\
    reply_result (eagain_reply cr_read pg_no_role) = -11 /\
    reply_acktype (eagain_reply cr_read pg_no_role) = 4 /\
    attaches_out_data (eagain_reply cr_read pg_no_role) = false.
Proof.
  eexists. split; [run_trace|].
  match goal with
  | |- ?u ≈ _ /\ _ =>
      assert (A : after (do_process process_op cr_read 1 9)
                    [Answered (Deref 1) pg_no_role] u) by run_trace
  end.
  exact (eagain_branch_of_do_process A eq_refl eq_refl eq_refl).
Defined.


Lemma completed_reply_never_attaches_refuted :
  attaches_out_data (completed_reply cr0 pg_primary 0) <> false.
Proof. discriminate. Qed.

Lemma broken_sequencer_wait_ends_silently_witness :
  exists u,
    after (start cr0)
      (admission0 ++
       [Answered (SeqStartOp 5 6) (Failed broken_condition_variable)]) u /\
    u ≈ Ret (Resolved tt).
Proof.
  eexists. split; [run_trace|].
  eapply (broken_sequencer_wait_ends_silently (cr := cr0) (pre := admission0)).
  run_trace.
Defined.

Lemma shutdown_ends_start_quietly_witness :
  exists u,
    after (start cr0)
      (to_get_pg0 ++ [Answered (OsdWaitForPg 3) (Failed system_shutdown_exception)]) u /\
    u ≈ Ret (Resolved tt).
Proof.
  eexists. split; [run_calls|].
  eapply (shutdown_ends_start_quietly (cr := cr0) (pre := to_get_pg0)
            (ev := Answered (OsdWaitForPg 3) (Failed system_shutdown_exception)));
    [run_calls|reflexivity].
Defined.

Lemma failed_admission_wait_is_not_handled_witness :
  exists u,
    after (start cr0)
      (to_get_pg0 ++ [Answered (OsdWaitForPg 3) (Failed (actingset_changed true))]) u /\
    u ≈ Ret (Failed (actingset_changed true)).
Proof.
  eexists. split; [run_calls|].
  eapply (failed_admission_wait_is_not_handled (cr := cr0) (pre := to_get_pg0)
            (ev := Answered (OsdWaitForPg 3) (Failed (actingset_changed true))));
    [run_calls|reflexivity|reflexivity|discriminate].
Defined.

Lemma unhandled_exception_fails_start_witness :
  exists u,
    after (start cr0) (round0 ++ [executed (Failed other_exception)]) u /\
    u ≈ Ret (Failed other_exception).
Proof.
  eexists. split; [run_calls|].
  eapply (unhandled_exception_fails_start (cr := cr0) (pre := round0)
            (ev := executed (Failed other_exception)));
    [run_calls|reflexivity|reflexivity].
Defined.

Lemma sequencer_release_ends_the_round_witness :
  exists u,
    after (start cr0)
      ((round0 ++ [executed (Resolved (inr reply0));
                   Answered (ConnSend 1 reply0) (Resolved tt)])
       ++ [Answered (SeqFinishOp 6) tt]) u /\
    u ≈ Ret (Resolved tt).
Proof.
  eexists. split; [run_calls|].
  eapply (sequencer_release_ends_the_round (cr := cr0)
            (pre := round0 ++ [executed (Resolved (inr reply0));
                               Answered (ConnSend 1 reply0) (Resolved tt)])
            (ev := Answered (SeqFinishOp 6) tt));
    [run_calls|reflexivity].
Defined.

Lemma start_acts_for_its_own_request_witness :
  exists u, after (start cr0) round0 u /\ Forall (own_call cr0) round0.
Proof.
  eexists. split; [run_calls|].
  eapply (start_acts_for_its_own_request (cr := cr0)). run_calls.
Defined.

Lemma pg_op_is_answered_by_do_pg_ops_witness :
  exists u,
    after (start cr_pgls) ((admission0 ++ sequenced0) ++ [activated0]) u /\
    u ≈ (r <- trigger (PgDoPgOps 1 msg_pgls);;
         match r with
         | Resolved reply =>
             r' <- trigger (ConnSend 1 reply);;
             match r' with
             | Resolved _ => trigger (SeqFinishOp 6);; Ret (Resolved tt)
             | Failed x => on_failure cr_pgls x
             end
         | Failed x => on_failure cr_pgls x
         end).
Proof.
  eexists. split; [run_calls|].
  eapply (pg_op_is_answered_by_do_pg_ops (cr := cr_pgls) (pre := admission0 ++ sequenced0)
            (pgref := 1) (op := {| op_code := 0x1501 |}));
    [run_calls|cbn; tauto|reflexivity].
Defined.

Lemma object_op_goes_to_process_op_witness :
  exists u,
    after (start cr0) ((admission0 ++ sequenced0) ++ [activated0]) u /\
    u ≈ in_round cr0 (guarded cr0 (process_op (cr0, 1))).
Proof.
  eexists. split; [run_calls|].
  eapply (object_op_goes_to_process_op (cr := cr0) (pre := admission0 ++ sequenced0)
            (pgref := 1)); [run_calls|].
  intros op [<-|[]]. reflexivity.
Defined.

Lemma duplicate_request_is_answered_then_finished_witness :
  exists u,
    after (start cr0)
      ((admission0 ++ sequenced0 ++ [activated0]
        ++ [Answered (HandleEnter (pp 1 pp_recover_missing)) (Resolved tt);
            Answered (Deref 1) pg_primary])
       ++ [Answered (PgAlreadyComplete 1 42) (Resolved (true, 0))]) u /\
    exists pgref,
      u ≈ (pg <- trigger (Deref pgref);;
           r <- trigger (ConnSend 1 (completed_reply cr0 pg 0));;
           match r with
           | Resolved _ => trigger (SeqFinishOp 6);; Ret (Resolved tt)
           | Failed x => on_failure cr0 x
           end).
Proof.
  eexists. split; [run_calls|].
  eapply (duplicate_request_is_answered_then_finished (cr := cr0)
            (pre := admission0 ++ sequenced0 ++ [activated0]
                    ++ [Answered (HandleEnter (pp 1 pp_recover_missing)) (Resolved tt);
                        Answered (Deref 1) pg_primary])
            (pg' := 1) (q := 42)).
  run_calls.
Defined.

Lemma object_load_error_is_swallowed_witness :
  exists u,
    after (start cr0)
      ((admission0 ++ sequenced0 ++ [activated0] ++ to_lock0)
       ++ [Answered (PgWithLockedObc 1 msg0 read_only) (Resolved (inl enoent))]) u /\
    u ≈ (trigger (SeqFinishOp 6);; Ret (Resolved tt)).
Proof.
  eexists. split; [run_calls|].
  eapply (object_load_error_is_swallowed (cr := cr0)
            (pre := admission0 ++ sequenced0 ++ [activated0] ++ to_lock0)
            (pg' := 1) (req := msg0) (oi := read_only) (c := enoent)).
  run_calls.
Defined.

Lemma reply_of_execution_is_sent_then_finished_witness :
  exists u,
    after (start cr0) (round0 ++ [executed (Resolved (inr reply0))]) u /\
    u ≈ (r <- trigger (ConnSend 1 reply0);;
         match r with
         | Resolved _ => trigger (SeqFinishOp 6);; Ret (Resolved tt)
         | Failed x => on_failure cr0 x
         end).
Proof.
  eexists. split; [run_calls|].
  eapply (reply_of_execution_is_sent_then_finished (cr := cr0) (pre := round0)
            (pg' := 1) (req := msg0) (obc := 9) (oi := read_only)).
  run_calls.
Defined.

Lemma locked_object_is_the_one_processed_witness :
  exists u,
    after (process_op (cr0, 1))
      (to_lock0 ++ [Answered (PgWithLockedObc 1 msg0 read_only) (Resolved (inr 9))]) u /\
    u ≈ then_ (enter (pp 1 pp_process))
          (fun _ => do_process process_op cr_read 1 9).
Proof.
  eexists. split; [run_calls|].
  eapply (locked_object_is_the_one_processed (cr := cr0) (pre := to_lock0)
            (pg' := 1) (req := msg0) (oi := read_only) (obc := 9)).
  run_calls.
Defined.

Lemma recovery_done_resumes_with_idempotence_check_witness :
  exists u,
    after (process_op (cr0, 1))
      ([Answered (HandleEnter (pp 1 pp_recover_missing)) (Resolved tt);
        Answered (Deref 1) pg_recovering]
       ++ [Answered (WaitForRecovered 1 7) (Resolved tt)]) u /\
    exists k, u ≈ Vis (PgAlreadyComplete 1 42) k.
Proof.
  eexists. split; [run_calls|].
  eapply (recovery_done_resumes_with_idempotence_check (cr := cr0) (pgref := 1)
            (pre := [Answered (HandleEnter (pp 1 pp_recover_missing)) (Resolved tt);
                     Answered (Deref 1) pg_recovering])
            (ev := Answered (WaitForRecovered 1 7) (Resolved tt)));
    [run_calls|exact I].
Defined.

Lemma failed_call_fails_process_op_witness :
  exists u,
    after (process_op (cr0, 1)) (object_path0 ++ [executed (Failed other_exception)]) u /\
    u ≈ Ret (Failed other_exception).
Proof.
  eexists. split; [run_calls|].
  eapply (failed_call_fails_process_op (a := (cr0, 1)) (pre := object_path0)
            (ev := executed (Failed other_exception)));
    [run_calls|reflexivity].
Defined.

Lemma process_op_addresses_one_pg_witness :
  exists u,
    after (process_op (cr0, 1)) object_path0 u /\
    Forall (fun ev => forall pg, call_pg ev = Some pg -> pg = 1) object_path0.
Proof.
  eexists. split; [run_calls|].
  eapply (process_op_addresses_one_pg (cr := cr0)). run_calls.
Defined.

Lemma misdirected_op_is_dropped_on_non_primary_witness :
  exists u,
    after (do_process process_op cr_write 1 9) [Answered (Deref 1) pg_replica] u /\
    is_misdirected cr_write pg_replica = true /\ u ≈ now.
Proof.
  eexists. split; [run_calls|].
  match goal with
  | |- _ /\ ?u ≈ _ =>
      assert (A : after (do_process process_op cr_write 1 9)
                    [Answered (Deref 1) pg_replica] u) by run_calls
  end.
  exact (misdirected_op_is_dropped_on_non_primary A eq_refl
           (or_intror (or_intror (or_introl eq_refl)))).
Defined.

Lemma primary_executes_without_replica_checks_witness :
  exists u,
    after (do_process process_op cr_read 1 9) [Answered (Deref 1) pg_primary] u /\
    u ≈ (r <- trigger (PgDoOsdOps 1 msg0 9 read_only);;
         match r with
         | Resolved (inr reply) => trigger (ConnSend 1 reply)
         | Resolved (inl _) => process_op (cr_read, 1)
         | Failed x => Ret (Failed x)
         end).
Proof.
  eexists. split; [run_calls|].
  match goal with
  | |- ?u ≈ _ =>
      assert (A : after (do_process process_op cr_read 1 9)
                    [Answered (Deref 1) pg_primary] u) by run_calls
  end.
  exact (primary_executes_without_replica_checks A eq_refl).
Defined.

End Runs.
